(** * Variable-ordering utilities of the inference engine

    A shallow embedding of [inference/Permutation.cpp],
    [inference/VariableSlots.cpp], and [ImuFactorBase::predict] and
    [ImuFactorBase::equals] from [gtsam/navigation/ImuFactorBase.h].

    Conventions.
    - [Index] is the unsigned machine index of the library ([size_t]); it is
      modelled as [N], and the one subtraction that can leave the range is
      written with its wrap-around ([Index_sub]).
    - A function that can hit a failed [assert] returns a [result]: [Ok v]
      when it returns [v], [Abort] when an assertion stops the program (the
      run ends at that assertion: nothing after it is executed, nothing is
      recovered or retried), and
      [Undefined] when the run makes an access that the language leaves
      undefined (a write through the unchecked [operator[]] of a
      [std::vector<bool>] outside the vector): from there on the program may
      crash, go on with corrupted memory, or do anything else, and nothing
      is claimed about it.  Assertions are taken as active (a build without
      [NDEBUG]).
    - A loop [for(Index j=0; j<n; ++j)] is [for_upto n body s]: the body is
      run for j = 0, 1, ..., n-1 on the loop state [s], and stops at the
      first round that does not return. *)

From stdpp Require Import base numbers list sets sorting strings pretty.
From Stdlib Require Import NArith Lia PrimFloat.

Open Scope N_scope.

(** ** Machine indices *)

Abbreviation Index := N (only parsing).

(** Modelled from the spec: [Index] is declared in [gtsam/base/types.h],
    which is not among the sources.  The spec asks for an unsigned index
    with a maximum representable value; the model takes [size_t] of a 64-bit
    target. *)
Definition Index_bits : N := 64.
Definition Index_modulus : N := 2 ^ Index_bits.

(** [numeric_limits<Index>::max()] *)
Definition Index_max : Index := Index_modulus - 1.

(** Unsigned subtraction, as the machine does it. *)
Definition Index_sub (a b : Index) : Index :=
  (a + Index_modulus - b) mod Index_modulus.

(** ** Results of code that may stop on an assertion *)

Inductive result (A : Type) : Type :=
| Ok (a : A)
| Abort
| Undefined.
Arguments Ok {A} a.
Arguments Abort {A}.
Arguments Undefined {A}.

Definition bind {A B} (m : result A) (k : A → result B) : result B :=
  match m with
  | Ok a => k a
  | Abort => Abort
  | Undefined => Undefined
  end.

Notation "'do' x <- m ;; k" := (bind m (λ x, k))
  (at level 10, x name, m at level 99, k at level 200, only parsing).
Notation "'do' ' pat <- m ;; k" := (bind m (λ pat, k))
  (at level 10, pat pattern, m at level 99, k at level 200, only parsing).

(** [assert(b)] *)
Definition assert (b : bool) : result unit :=
  if b then Ok () else Abort.

(** [for(Index j = first; <count more rounds>; ++j) s = body(j, s)].  The
    counter is only incremented after a round that ran with [j] below the
    loop bound, so the increment cannot wrap. *)
Fixpoint for_range {S : Type} (count : nat) (j : Index)
    (body : Index → S → result S) (s : S) : result S :=
  match count with
  | O => Ok s
  | S count' => do s' <- body j s ;; for_range count' (j + 1) body s'
  end.

(** [for(Index j=0; j<n; ++j) s = body(j, s)] *)
Definition for_upto {S : Type} (n : Index)
    (body : Index → S → result S) (s : S) : result S :=
  for_range (N.to_nat n) 0 body s.

(** ** std::vector *)

(** [v.size()] *)
Definition vsize {A} (v : list A) : Index := N.of_nat (length v).

(** [v[i]] read at a position the surrounding loop keeps below [v.size()]. *)
Definition vget {A} `{Inhabited A} (v : list A) (i : Index) : A :=
  v !!! N.to_nat i.

(** [flags[i] = true] on a [std::vector<bool>].  Its [operator[]] has no
    bounds check: a write at [i >= flags.size()] goes outside the vector,
    and the behaviour of the program is undefined. *)
Definition flag_set (flags : list bool) (i : Index) : result (list bool) :=
  if i <? vsize flags then Ok (<[N.to_nat i := true]> flags) else Undefined.

(** ** Permutation *)

(** Modelled from the spec: the class is declared in [Permutation.h], which
    is not among the sources.  A permutation is an ordered sequence of
    indices, the member [rangeIndices_] that [Permutation.cpp] reads and
    prints. *)
Abbreviation Permutation := (list Index) (only parsing).

(** Modelled from the spec: the constructor [Permutation(nVars)] of
    [Permutation.h], as [Permutation.cpp] uses it: a sequence of [nVars]
    entries, which the operations then assign.  The entries start
    value-initialised, as those of a [std::vector<Index>] of that size. *)
Definition Permutation_new (nVars : Index) : Permutation :=
  replicate (N.to_nat nVars) 0.

(** [Permutation::size()], the size of [rangeIndices_] *)
Definition psize (p : Permutation) : Index := vsize p.

(** Modelled from the spec: [Permutation::check], declared in
    [Permutation.h], which is not among the sources.  An index outside the
    permutation is a contract violation that stops the operation; both
    [operator[]] of the class go through this check (as the assertions of
    [permute] and [inverse] on the values they index with also show). *)
Definition check (p : Permutation) (variable : Index) : result unit :=
  assert (variable <? psize p).

(** [p[variable]], read *)
Definition at_ (p : Permutation) (variable : Index) : result Index :=
  do _ <- check p variable ;; Ok (vget p variable).

(** [p[variable] = v] *)
Definition assign (p : Permutation) (variable v : Index) : result Permutation :=
  do _ <- check p variable ;; Ok (<[N.to_nat variable := v]> p).

(** [Permutation::Identity] *)
Definition Identity (nVars : Index) : result Permutation :=
  for_upto nVars (λ i ret, assign ret i i) (Permutation_new nVars).

(** [Permutation::PullToFront] *)
Definition PullToFront (toFront : list Index) (size : Index) : result Permutation :=
  let ret := Permutation_new size in
  let pulled := replicate (N.to_nat size) false in
  do '(ret, pulled) <-
    for_upto (vsize toFront)
      (λ j '(ret, pulled),
         do ret <- assign ret j (vget toFront j) ;;
         do pulled <- flag_set pulled (vget toFront j) ;;
         Ok (ret, pulled))
      (ret, pulled) ;;
  let nextVar := vsize toFront in
  do '(ret, nextVar) <-
    for_upto size
      (λ j '(ret, nextVar),
         if negb (vget pulled j)
         then do ret <- assign ret nextVar j ;; Ok (ret, nextVar + 1)
         else Ok (ret, nextVar))
      (ret, nextVar) ;;
  do _ <- assert (nextVar =? size) ;;
  Ok ret.

(** [Permutation::PushToBack] *)
Definition PushToBack (toBack : list Index) (size : Index) : result Permutation :=
  let ret := Permutation_new size in
  let pushed := replicate (N.to_nat size) false in
  let nextVar := Index_sub size (vsize toBack) in
  do '(ret, pushed, nextVar) <-
    for_upto (vsize toBack)
      (λ j '(ret, pushed, nextVar),
         do ret <- assign ret nextVar (vget toBack j) ;;
         do pushed <- flag_set pushed (vget toBack j) ;;
         Ok (ret, pushed, nextVar + 1))
      (ret, pushed, nextVar) ;;
  do _ <- assert (nextVar =? size) ;;
  let nextVar := 0 in
  do '(ret, nextVar) <-
    for_upto size
      (λ j '(ret, nextVar),
         if negb (vget pushed j)
         then do ret <- assign ret nextVar j ;; Ok (ret, nextVar + 1)
         else Ok (ret, nextVar))
      (ret, nextVar) ;;
  do _ <- assert (nextVar =? Index_sub size (vsize toBack)) ;;
  Ok ret.

(** [Permutation::permute] *)
Definition permute (this permutation : Permutation) : result Permutation :=
  let nVars := psize permutation in
  for_upto nVars
    (λ j result,
       do pj <- at_ permutation j ;;
       do _ <- assert (pj <? vsize this) ;;
       do pj <- at_ permutation j ;;
       do v <- at_ this pj ;;
       assign result j v)
    (Permutation_new nVars).

(** [Permutation::partialPermutation] *)
Definition partialPermutation (this selector partialPermutation : Permutation)
    : result Permutation :=
  do _ <- assert (psize selector =? psize partialPermutation) ;;
  for_upto (psize selector)
    (λ subsetPos result,
       do src <- at_ partialPermutation subsetPos ;;
       do src <- at_ selector src ;;
       do v <- at_ this src ;;
       do dst <- at_ selector subsetPos ;;
       assign result dst v)
    this.

(** [Permutation::inverse] *)
Definition inverse (this : Permutation) : result Permutation :=
  for_upto (psize this)
    (λ i result,
       do v <- at_ this i ;;
       do _ <- assert (v <? psize this) ;;
       do v <- at_ this i ;;
       assign result v i)
    (Permutation_new (psize this)).


(** ** The bijection invariant *)

(** The ids [0, 1, ..., n-1] in ascending order. *)
Definition iota (n : Index) : list Index := N.of_nat <$> seq 0 (N.to_nat n).

(** A sequence of length [n] whose values are exactly the set {0,...,n-1}. *)
Definition bijection (n : Index) (p : Permutation) : Prop :=
  psize p = n ∧ ∀ v : Index, v ∈ p ↔ v < n.

(** Executable check of the bijection invariant. *)
Definition bijectionb (n : Index) (p : Permutation) : bool :=
  (psize p =? n)
  && forallb (λ v, bool_decide (v ∈ p)) (iota n)
  && forallb (λ v, v <? n) p.

(** The ids below [n] that are not among [targets], in ascending order. *)
Definition others (targets : list Index) (n : Index) : list Index :=
  filter (λ v, v ∉ targets) (iota n).

(** The flag vector that marks the ids of [l] among the [n] ids. *)
Definition marks (l : list Index) (n : Index) : list bool :=
  (λ v, bool_decide (v ∈ l)) <$> iota n.

(** ** VariableSlots *)

(** Modelled from the spec: the class is declared in [VariableSlots.h],
    which is not among the sources.  It is a mapping from a variable id to
    a sequence of slots, one per factor, that [VariableSlots.cpp] iterates
    as (variable, slots) pairs; iterating the map visits the variables in
    ascending order of their ids.  The model is the sequence of its entries
    in that order. *)
Abbreviation VariableSlots := (list (Index * list Index)) (only parsing).

(** What is inserted into [cout]: a piece of text, or an index that the
    stream writes in decimal. *)
Inductive item : Type :=
| Str (s : string)
| Num (n : Index).

(** The characters written for [\t] and [\n]. *)
Definition tab : string := String (Ascii.ascii_of_nat 9) EmptyString.
Definition newline : string := String (Ascii.ascii_of_nat 10) EmptyString.

(** The characters the stream shows for its items. *)
Definition text (out : list item) : string :=
  foldr (λ it acc, match it with
                   | Str s => s +:+ acc
                   | Num n => pretty n +:+ acc
                   end) EmptyString out.

(** [VariableSlots::print]; the result is what the call inserts into
    [cout], in order.  The read [slot.second[i]] is unchecked; it is in range
    when every row has the length of the first one, as the rows of a table
    (one slot per factor) have. *)
Definition print (this : VariableSlots) (str : string) : list item :=
  match this with
  | [] => [Str "empty"; Str newline]
  | first :: _ =>
      let cout := [Str str; Str newline] in
      let cout := cout ++ [Str ("Var:" +:+ tab)] in
      let cout := foldl (λ cout slot, cout ++ [Num slot.1; Str tab]) cout this in
      let cout := cout ++ [Str newline] in
      foldl
        (λ cout i,
           let cout := cout ++ [Str ("    " +:+ tab)] in
           let cout :=
             foldl (λ cout slot,
                      if vget slot.2 i =? Index_max
                      then cout ++ [Str "x"; Str tab]
                      else cout ++ [Num (vget slot.2 i); Str tab])
                   cout this in
           cout ++ [Str newline])
        cout (iota (vsize first.2))
  end.

(** [std::equal] over two ranges after the size comparison, as
    [operator==] of the standard containers does. *)
Definition container_eq {A} (eq : A → A → bool) (a b : list A) : bool :=
  (vsize a =? vsize b) && forallb (λ xy, eq xy.1 xy.2) (zip a b).

(** [operator==] of [std::vector<Index>] *)
Definition vector_eq (a b : list Index) : bool := container_eq N.eqb a b.

(** [operator==] of the map: equal sizes, and equal (key, slots) pairs in
    iteration order. *)
Definition map_eq (a b : VariableSlots) : bool :=
  container_eq (λ x y, (x.1 =? y.1) && vector_eq x.2 y.2) a b.

(** [VariableSlots::equals] *)
Definition equals (this rhs : VariableSlots) (tol : float) : bool :=
  map_eq this rhs.

(** A printed cell: the marker for the sentinel, the number otherwise. *)
Definition cell (v : Index) : item :=
  if v =? Index_max then Str "x" else Num v.

(** A printed line: a label, then every cell followed by a tab. *)
Definition line (label : string) (cells : list item) : list item :=
  Str (label +:+ tab) :: concat ((λ c, [c; Str tab]) <$> cells) ++ [Str newline].

(** ** ImuFactorBase::predict *)

Module ImuFactorBase.
Section predict.

(** The geometry and preintegration classes that [ImuFactorBase.h] takes
    from its includes: their values and the operations [predict] calls on
    them.  [double] is the binary64 [float]. *)
Context {Vector3 Matrix3 Rot3 Point3 Pose3 ConstantBias PreintegrationBase : Type}.

(** Vector3 and Matrix3 arithmetic *)
Context (vadd vsub : Vector3 → Vector3 → Vector3)
        (vscale : Vector3 → float → Vector3)
        (scalev : float → Vector3 → Vector3)
        (mvmul : Matrix3 → Vector3 → Vector3)
        (mmul : Matrix3 → Matrix3 → Matrix3)
        (scalem : float → Matrix3 → Matrix3)
        (mneg : Matrix3 → Matrix3)
        (skewSymmetric : Vector3 → Matrix3).

(** imuBias::ConstantBias *)
Context (accelerometer gyroscope : ConstantBias → Vector3).

(** PreintegrationBase *)
Context (deltaTij : PreintegrationBase → float)
        (biasHat : PreintegrationBase → ConstantBias)
        (deltaPij deltaVij : PreintegrationBase → Vector3)
        (delPdelBiasAcc delPdelBiasOmega
         delVdelBiasAcc delVdelBiasOmega : PreintegrationBase → Matrix3)
        (biascorrectedDeltaRij : PreintegrationBase → Vector3 → Rot3).

(** Rot3, Point3, Pose3 *)
Context (rotation : Pose3 → Rot3)
        (translation : Pose3 → Point3)
        (vector : Point3 → Vector3)
        (matrix : Rot3 → Matrix3)
        (Rot3_inverse : Rot3 → Rot3)
        (Rot3_compose : Rot3 → Rot3 → Rot3)
        (Logmap : Rot3 → Vector3)
        (Expmap : Vector3 → Rot3)
        (mkPoint3 : Vector3 → Point3)
        (mkPose3 : Rot3 → Point3 → Pose3).

(** [struct PoseVelocityBias] *)
Record PoseVelocityBias : Type := mkPoseVelocityBias {
  pose : Pose3;
  velocity : Vector3;
  bias : ConstantBias
}.

(** [ImuFactorBase::predict] *)
Definition predict (pose_i : Pose3) (vel_i : Vector3) (bias_i : ConstantBias)
    (_PIM : PreintegrationBase) (gravity omegaCoriolis : Vector3)
    (use2ndOrderCoriolis : bool) : PoseVelocityBias :=
  let deltaTij := deltaTij _PIM in
  let biasAccIncr := vsub (accelerometer bias_i) (accelerometer (biasHat _PIM)) in
  let biasOmegaIncr := vsub (gyroscope bias_i) (gyroscope (biasHat _PIM)) in
  let Rot_i := rotation pose_i in
  let pos_i := vector (translation pose_i) in
  let pos_j :=
    vadd
      (vsub
         (vadd
            (vadd pos_i
               (mvmul (matrix Rot_i)
                  (vadd
                     (vadd (deltaPij _PIM)
                        (mvmul (delPdelBiasAcc _PIM) biasAccIncr))
                     (mvmul (delPdelBiasOmega _PIM) biasOmegaIncr))))
            (vscale vel_i deltaTij))
         (vscale (vscale (mvmul (skewSymmetric omegaCoriolis) vel_i) deltaTij)
            deltaTij))
      (vscale (vscale (scalev 0.5%float gravity) deltaTij) deltaTij) in
  let vel_j :=
    vadd
      (vsub
         (vadd vel_i
            (mvmul (matrix Rot_i)
               (vadd
                  (vadd (deltaVij _PIM)
                     (mvmul (delVdelBiasAcc _PIM) biasAccIncr))
                  (mvmul (delVdelBiasOmega _PIM) biasOmegaIncr))))
         (vscale
            (mvmul (scalem 2%float (skewSymmetric omegaCoriolis)) vel_i)
            deltaTij))
      (vscale gravity deltaTij) in
  let '(pos_j, vel_j) :=
    if use2ndOrderCoriolis then
      (vadd pos_j
         (vscale
            (vscale
               (mvmul
                  (mmul (scalem (PrimFloat.opp 0.5%float)
                           (skewSymmetric omegaCoriolis))
                     (skewSymmetric omegaCoriolis))
                  pos_i)
               deltaTij)
            deltaTij),
       vadd vel_j
         (vscale
            (mvmul
               (mmul (mneg (skewSymmetric omegaCoriolis))
                  (skewSymmetric omegaCoriolis))
               pos_i)
            deltaTij))
    else (pos_j, vel_j) in
  let deltaRij_biascorrected := biascorrectedDeltaRij _PIM biasOmegaIncr in
  let theta_biascorrected := Logmap deltaRij_biascorrected in
  let theta_biascorrected_corioliscorrected :=
    vsub theta_biascorrected
      (vscale (mvmul (matrix (Rot3_inverse Rot_i)) omegaCoriolis) deltaTij) in
  let deltaRij_biascorrected_corioliscorrected :=
    Expmap theta_biascorrected_corioliscorrected in
  let Rot_j := Rot3_compose Rot_i deltaRij_biascorrected_corioliscorrected in
  let pose_j := mkPose3 Rot_j (mkPoint3 pos_j) in
  mkPoseVelocityBias pose_j vel_j bias_i.

End predict.
End ImuFactorBase.

(** ** Permutation::print *)




(** ** ImuFactorBase: the class and its comparison *)

Module ImuFactorBaseClass.
Section class.

(** The vector and pose classes that [ImuFactorBase.h] takes from its
    includes, with the two comparisons that [equals] calls:
    [equal_with_abs_tol] on vectors, and [Pose3::equals] as it is called in
    [equals], with one argument (the tolerance of the caller is not passed
    on). *)
Context {Vector3 Pose3 : Type}.
Context (equal_with_abs_tol : Vector3 → Vector3 → float → bool)
        (Pose3_equals : Pose3 → Pose3 → bool).

(** [class ImuFactorBase]: its four members. *)
Record ImuFactorBase : Type := mkImuFactorBase {
  gravity_ : Vector3;
  omegaCoriolis_ : Vector3;
  body_P_sensor_ : option Pose3;
  use2ndOrderCoriolis_ : bool
}.

(** The constructor [ImuFactorBase(gravity, omegaCoriolis, body_P_sensor,
    use2ndOrderCoriolis)]. *)
Definition new (gravity omegaCoriolis : Vector3) (body_P_sensor : option Pose3)
    (use2ndOrderCoriolis : bool) : ImuFactorBase :=
  mkImuFactorBase gravity omegaCoriolis body_P_sensor use2ndOrderCoriolis.

(** [ImuFactorBase::gravity] and [ImuFactorBase::omegaCoriolis] *)
Definition gravity (this : ImuFactorBase) : Vector3 := gravity_ this.
Definition omegaCoriolis (this : ImuFactorBase) : Vector3 := omegaCoriolis_ this.

(** [ImuFactorBase::equals] *)
Definition equals (this expected : ImuFactorBase) (tol : float) : bool :=
  equal_with_abs_tol (gravity_ this) (gravity_ expected) tol
  && equal_with_abs_tol (omegaCoriolis_ this) (omegaCoriolis_ expected) tol
  && Bool.eqb (use2ndOrderCoriolis_ this) (use2ndOrderCoriolis_ expected)
  && ((negb (bool_decide (is_Some (body_P_sensor_ this)))
       && negb (bool_decide (is_Some (body_P_sensor_ expected))))
      || match body_P_sensor_ this, body_P_sensor_ expected with
         | Some b, Some e => Pose3_equals b e
         | _, _ => false
         end).

End class.
End ImuFactorBaseClass.

(** * Proofs *)

(** ** Loops and checked accesses *)

Lemma bind_Ok {A B} (m : result A) (k : A → result B) a :
  m = Ok a → bind m k = k a.
Proof. by intros ->. Qed.

Lemma for_range_inv {S} (Inv : nat → S → Prop) body count (j : nat) (s : S) :
  Inv j s →
  (∀ i s, (j ≤ i < j + count)%nat → Inv i s →
     ∃ s', body (N.of_nat i) s = Ok s' ∧ Inv (Datatypes.S i) s') →
  ∃ s', for_range count (N.of_nat j) body s = Ok s' ∧ Inv (j + count)%nat s'.
Proof.
  revert j s. induction count as [|count IH]; intros j s Hinv Hstep; simpl.
  - exists s. by rewrite Nat.add_0_r.
  - destruct (Hstep j s) as (s' & -> & Hinv'); [lia|done|]. simpl.
    replace (N.of_nat j + 1) with (N.of_nat (Datatypes.S j)) by lia.
    destruct (IH (Datatypes.S j) s') as (s'' & -> & Hfin); [done| |].
    + intros i s0 Hi. apply Hstep. lia.
    + exists s''. split; [done|]. by replace (j + Datatypes.S count)%nat
        with (Datatypes.S j + count)%nat by lia.
Qed.

Lemma for_upto_inv {S} (Inv : nat → S → Prop) body (n : Index) (s : S) :
  Inv 0%nat s →
  (∀ i s, (i < N.to_nat n)%nat → Inv i s →
     ∃ s', body (N.of_nat i) s = Ok s' ∧ Inv (Datatypes.S i) s') →
  ∃ s', for_upto n body s = Ok s' ∧ Inv (N.to_nat n) s'.
Proof.
  intros H0 Hstep. unfold for_upto.
  apply (for_range_inv Inv body (N.to_nat n) 0 s H0).
  intros i s0 Hi. apply Hstep. lia.
Qed.

(** Runs the first loop of the goal under the invariant [Inv]. *)
Ltac loop_inv Inv H :=
  match goal with
  | |- context [for_upto ?n ?body ?s] =>
      pose proof (for_upto_inv Inv body n s) as H
  end.

Lemma vsize_lt {A} (v : list A) (i : nat) :
  (N.of_nat i <? vsize v) = true ↔ (i < length v)%nat.
Proof. unfold vsize. rewrite N.ltb_lt. lia. Qed.

Lemma at_Some (p : Permutation) (v x : Index) :
  p !! N.to_nat v = Some x → at_ p v = Ok x.
Proof.
  intros Hl. unfold at_, check, psize, vsize, vget.
  pose proof (lookup_lt_Some _ _ _ Hl) as Hlt.
  replace (v <? N.of_nat (length p)) with true by (symmetry; apply N.ltb_lt; lia).
  simpl. f_equal. by apply list_lookup_total_correct.
Qed.

Lemma at_of_nat (p : Permutation) (i : nat) (x : Index) :
  p !! i = Some x → at_ p (N.of_nat i) = Ok x.
Proof. intros Hl. apply at_Some. by rewrite Nat2N.id. Qed.

Lemma at_Abort (p : Permutation) (v : Index) :
  psize p ≤ v → at_ p v = Abort.
Proof.
  intros Hle. unfold at_, check.
  by replace (v <? psize p) with false by (symmetry; apply N.ltb_ge; lia).
Qed.

Lemma assign_Ok (p : Permutation) (v x : Index) :
  v < psize p → assign p v x = Ok (<[N.to_nat v := x]> p).
Proof.
  intros Hlt. unfold assign, check.
  by replace (v <? psize p) with true by (symmetry; apply N.ltb_lt; lia).
Qed.

Lemma assign_of_nat (p : Permutation) (i : nat) (x : Index) :
  (i < length p)%nat → assign p (N.of_nat i) x = Ok (<[i := x]> p).
Proof.
  intros Hlt. rewrite assign_Ok; [by rewrite Nat2N.id|].
  unfold psize, vsize. lia.
Qed.

Lemma assign_Abort (p : Permutation) (v x : Index) :
  psize p ≤ v → assign p v x = Abort.
Proof.
  intros Hle. unfold assign, check.
  by replace (v <? psize p) with false by (symmetry; apply N.ltb_ge; lia).
Qed.

Lemma assign_cases (p : Permutation) (v x : Index) :
  assign p v x = Abort ∨ ∃ p', assign p v x = Ok p'.
Proof. unfold assign, check, assert. destruct (v <? psize p); simpl; eauto. Qed.

Lemma vget_of_nat {A} `{Inhabited A} (l : list A) (i : nat) (x : A) :
  l !! i = Some x → vget l (N.of_nat i) = x.
Proof.
  intros Hl. unfold vget. rewrite Nat2N.id. by apply list_lookup_total_correct.
Qed.

(** ** Ascending id ranges *)

Lemma length_iota n : length (iota n) = N.to_nat n.
Proof. unfold iota. by rewrite length_fmap, length_seq. Qed.

Lemma lookup_iota n (i : nat) :
  (i < N.to_nat n)%nat → iota n !! i = Some (N.of_nat i).
Proof.
  intros Hi. unfold iota. rewrite list_lookup_fmap, lookup_seq_lt; [done|lia].
Qed.

Lemma elem_of_iota n (v : Index) : v ∈ iota n ↔ v < n.
Proof.
  unfold iota. rewrite list_elem_of_fmap. split.
  - intros (i & -> & Hi). apply elem_of_seq in Hi. lia.
  - intros Hv. exists (N.to_nat v). split; [lia|]. apply elem_of_seq. lia.
Qed.

Lemma NoDup_iota n : NoDup (iota n).
Proof. unfold iota. apply NoDup_fmap_2; [apply _|apply NoDup_seq]. Qed.

Lemma bijection_iota n : bijection n (iota n).
Proof.
  split; [|apply elem_of_iota].
  unfold psize, vsize. rewrite length_iota. lia.
Qed.

Lemma bijection_length n p : bijection n p → length p = N.to_nat n.
Proof. intros [Hs _]. unfold psize, vsize in Hs. lia. Qed.

(** A list of [n] values that covers the [n] ids has no repetition. *)
Lemma bijection_NoDup n p : bijection n p → NoDup p.
Proof.
  intros Hb. pose proof (bijection_length _ _ Hb) as Hlen. destruct Hb as [_ Hb].
  assert (iota n ⊆+ p) as Hsub.
  { apply NoDup_submseteq; [apply NoDup_iota|].
    intros v Hv. apply Hb. by apply elem_of_iota. }
  assert (iota n ≡ₚ p) as Hperm.
  { apply submseteq_length_Permutation; [done|]. rewrite length_iota. lia. }
  rewrite <- Hperm. apply NoDup_iota.
Qed.

Lemma bijection_lookup_lt n p (i : nat) v :
  bijection n p → p !! i = Some v → v < n.
Proof. intros [_ Hb] Hl. apply Hb. by eapply list_elem_of_lookup_2. Qed.

(** Writing [x] at the first free slot of a buffer laid out as
    [pre ++ F ++ <free slots> ++ post]. *)
Lemma insert_next_free {A} (pre F post : list A) (r i : nat) (x d : A) :
  i = (length pre + length F)%nat →
  <[i := x]> (pre ++ F ++ replicate (S r) d ++ post)
  = pre ++ (F ++ [x]) ++ replicate r d ++ post.
Proof.
  intros ->. rewrite insert_app_r, insert_app_r_alt by lia.
  replace (length F - length F)%nat with 0%nat by lia. simpl.
  by rewrite <- app_assoc.
Qed.

(** ** Identity *)

Lemma Identity_iota n : Identity n = Ok (iota n).
Proof.
  unfold Identity.
  loop_inv (λ (i : nat) (ret : Permutation),
    ret = take i (iota n) ++ replicate (N.to_nat n - i) 0) Hloop.
  destruct Hloop as (ret & -> & Hret).
  - simpl. by rewrite Nat.sub_0_r.
  - intros i ret Hi ->. eexists. split.
    + apply assign_of_nat.
      rewrite length_app, length_take, length_iota, length_replicate. lia.
    + cbv beta. rewrite (take_S_r _ _ (N.of_nat i)) by by apply lookup_iota.
      replace (N.to_nat n - i)%nat with (S (N.to_nat n - S i)) by lia.
      pose proof (insert_next_free [] (take i (iota n)) [] (N.to_nat n - S i) i
        (N.of_nat i) 0) as Hins.
      simpl in Hins. rewrite !app_nil_r in Hins. apply Hins.
      rewrite length_take, length_iota. lia.
  - f_equal. rewrite Hret, Nat.sub_diag. simpl. rewrite app_nil_r.
    apply take_ge. rewrite length_iota. lia.
Qed.

(** ** PullToFront and PushToBack *)

Lemma length_marks l n : length (marks l n) = N.to_nat n.
Proof. unfold marks. by rewrite length_fmap, length_iota. Qed.

Lemma marks_nil n : marks [] n = replicate (N.to_nat n) false.
Proof.
  apply list_eq. intros i. unfold marks. rewrite list_lookup_fmap.
  destruct (decide (i < N.to_nat n)%nat) as [Hi|Hi].
  - by rewrite lookup_iota, lookup_replicate_2 by done.
  - rewrite (lookup_ge_None_2 (iota n)) by (rewrite length_iota; lia).
    symmetry. apply lookup_replicate_None. lia.
Qed.

Lemma flag_set_marks l n (t : Index) :
  t < n → flag_set (marks l n) t = Ok (marks (l ++ [t]) n).
Proof.
  intros Ht. unfold flag_set, vsize. rewrite length_marks.
  replace (t <? N.of_nat (N.to_nat n)) with true by (symmetry; apply N.ltb_lt; lia).
  f_equal. apply list_eq. intros i. unfold marks.
  destruct (decide (i = N.to_nat t)) as [->|Hne].
  - rewrite list_lookup_insert_eq by (rewrite length_fmap, length_iota; lia).
    rewrite list_lookup_fmap, lookup_iota by lia. simpl. f_equal.
    symmetry. apply bool_decide_eq_true_2. rewrite N2Nat.id. set_solver.
  - rewrite list_lookup_insert_ne by done. rewrite !list_lookup_fmap.
    destruct (iota n !! i) as [v|] eqn:Hv; [|done]. simpl. f_equal.
    assert (v ≠ t) as Hvt.
    { intros ->. destruct (decide (i < N.to_nat n)%nat) as [Hi|Hi].
      - rewrite lookup_iota in Hv by done. simplify_eq. lia.
      - apply lookup_lt_Some in Hv. rewrite length_iota in Hv. lia. }
    apply bool_decide_ext. set_solver.
Qed.

Lemma lookup_marks l n (i : nat) :
  (i < N.to_nat n)%nat → marks l n !! i = Some (bool_decide (N.of_nat i ∈ l)).
Proof. intros Hi. unfold marks. by rewrite list_lookup_fmap, lookup_iota. Qed.

(** Duplicate-free targets below [n] are at most [n], and with the other ids
    below [n] they make up all [n] ids. *)
Lemma length_targets_others targets n :
  NoDup targets → Forall (λ v, v < n) targets →
  (length targets + length (others targets n))%nat = N.to_nat n.
Proof.
  intros Hnd Hlt. unfold others.
  assert (filter (λ v, v ∈ targets) (iota n) ≡ₚ targets) as Hin.
  { apply NoDup_Permutation; [apply NoDup_filter, NoDup_iota|done|].
    intros v. rewrite list_elem_of_filter, elem_of_iota.
    rewrite Forall_forall in Hlt. naive_solver. }
  pose proof (filter_app_complement (λ v, v ∈ targets) (iota n)) as Hsplit.
  apply Permutation_length in Hsplit. apply Permutation_length in Hin.
  rewrite length_app, length_iota in Hsplit. lia.
Qed.

Lemma length_filter_take {A} (P : A → Prop) `{∀ x, Decision (P x)} (l : list A) i :
  (length (filter P (take i l)) ≤ length (filter P l))%nat.
Proof.
  rewrite <- (take_drop i l) at 2. rewrite filter_app, length_app. lia.
Qed.

(** The loop that fills the free slots with the ids that are not marked. *)
Lemma fill_rest targets n (pre post : list Index) (m : nat) :
  (length (others targets n) ≤ m)%nat →
  for_upto n
    (λ j '(ret, nextVar),
       if negb (vget (marks targets n) j)
       then do ret <- assign ret nextVar j ;; Ok (ret, nextVar + 1)
       else Ok (ret, nextVar))
    (pre ++ replicate m 0 ++ post, N.of_nat (length pre))
  = Ok (pre ++ others targets n
            ++ replicate (m - length (others targets n)) 0 ++ post,
        N.of_nat (length pre + length (others targets n))).
Proof.
  intros Hm.
  set (F := λ i : nat, filter (λ v, v ∉ targets) (take i (iota n))).
  loop_inv (λ (i : nat) (st : list Index * Index),
    st = (pre ++ F i ++ replicate (m - length (F i)) 0 ++ post,
          N.of_nat (length pre + length (F i)))) Hloop.
  destruct Hloop as (st & -> & ->).
  - unfold F. simpl. by rewrite Nat.sub_0_r, Nat.add_0_r.
  - intros i st Hi ->. cbv beta iota.
    assert (F (S i) = F i ++ (if decide (N.of_nat i ∈ targets) then [] else [N.of_nat i]))
      as HF.
    { unfold F. rewrite (take_S_r _ _ (N.of_nat i)) by by apply lookup_iota.
      rewrite filter_app. f_equal.
      destruct (decide (N.of_nat i ∈ targets)) as [Hin|Hin].
      - by rewrite filter_cons_False, filter_nil by naive_solver.
      - by rewrite filter_cons_True, filter_nil by done. }
    pose proof (length_filter_take (λ v, v ∉ targets) (iota n) (S i)) as Hle.
    fold (F (S i)) in Hle. fold (others targets n) in Hle. rewrite HF in Hle.
    erewrite vget_of_nat by by apply lookup_marks.
    destruct (decide (N.of_nat i ∈ targets)) as [Hin|Hin].
    + rewrite bool_decide_eq_true_2 by done. simpl.
      eexists. split; [done|]. by rewrite HF, app_nil_r.
    + rewrite bool_decide_eq_false_2 by done. simpl.
      rewrite length_app in Hle. simpl in Hle.
      rewrite assign_of_nat
        by (rewrite !length_app, length_replicate; lia).
      simpl. eexists. split; [done|]. rewrite HF. f_equal.
      * replace (m - length (F i))%nat
          with (S (m - length (F i ++ [N.of_nat i]))) by (rewrite length_app; simpl; lia).
        by apply insert_next_free.
      * rewrite length_app. simpl. lia.
  - unfold F. rewrite take_ge by (rewrite length_iota; lia). done.
Qed.

Lemma PullToFront_layout targets n :
  NoDup targets → Forall (λ v, v < n) targets →
  PullToFront targets n = Ok (targets ++ others targets n).
Proof.
  intros Hnd Hlt. pose proof (length_targets_others _ _ Hnd Hlt) as Hlen.
  unfold PullToFront.
  loop_inv (λ (j : nat) (st : list Index * list bool),
    st = (take j targets ++ replicate (N.to_nat n - j) 0,
          marks (take j targets) n)) Hloop.
  destruct Hloop as (st & -> & ->).
  - unfold Permutation_new. simpl. by rewrite marks_nil, Nat.sub_0_r.
  - intros i st Hi ->. unfold vsize in Hi. rewrite Nat2N.id in Hi.
    destruct (lookup_lt_is_Some_2 targets i Hi) as [t Ht].
    assert (t < n) as Htn.
    { rewrite Forall_forall in Hlt. apply Hlt. by eapply list_elem_of_lookup_2. }
    cbv beta iota. rewrite (vget_of_nat _ _ _ Ht).
    rewrite assign_of_nat
      by (rewrite length_app, length_take, length_replicate; lia).
    rewrite flag_set_marks by done.
    simpl. eexists. split; [done|].
    rewrite (take_S_r _ _ t) by done. f_equal.
    replace (N.to_nat n - i)%nat with (S (N.to_nat n - S i)) by lia.
    pose proof (insert_next_free [] (take i targets) [] (N.to_nat n - S i) i t 0)
      as Hins.
    simpl in Hins. rewrite !app_nil_r in Hins. apply Hins.
    rewrite length_take. lia.
  - simpl. unfold vsize. rewrite !Nat2N.id, take_ge by lia.
    pose proof (fill_rest targets n targets [] (N.to_nat n - length targets))
      as Hfill.
    rewrite !app_nil_r in Hfill. rewrite Hfill by lia. simpl.
    replace (N.of_nat (length targets + length (others targets n)) =? n)
      with true by (symmetry; apply N.eqb_eq; lia).
    simpl. do 2 f_equal.
    replace (N.to_nat n - length targets - length (others targets n))%nat
      with 0%nat by lia.
    simpl. by rewrite app_nil_r.
Qed.

Lemma Index_sub_small (a b : Index) :
  a < Index_modulus → b ≤ a → Index_sub a b = a - b.
Proof.
  intros Ha Hb. unfold Index_sub.
  replace (a + Index_modulus - b) with ((a - b) + 1 * Index_modulus) by lia.
  rewrite N.Div0.mod_add. apply N.mod_small. lia.
Qed.

Lemma PushToBack_layout targets n :
  n < Index_modulus →
  NoDup targets → Forall (λ v, v < n) targets →
  PushToBack targets n = Ok (others targets n ++ targets).
Proof.
  intros Hn Hnd Hlt. pose proof (length_targets_others _ _ Hnd Hlt) as Hlen.
  unfold PushToBack, vsize.
  remember (length targets) as k eqn:Hk.
  remember (N.to_nat n - k)%nat as free eqn:Hfree.
  rewrite Index_sub_small by lia.
  loop_inv (λ (j : nat) (st : list Index * list bool * Index),
    st = (replicate free 0 ++ take j targets ++ replicate (k - j) 0,
          marks (take j targets) n, N.of_nat (free + j))) Hloop.
  destruct Hloop as (st & -> & ->).
  - unfold Permutation_new. simpl. rewrite marks_nil, Nat.sub_0_r, Nat.add_0_r.
    rewrite <- replicate_add. f_equal; [|lia]. do 2 f_equal. lia.
  - intros i st Hi ->. rewrite Nat2N.id in Hi.
    destruct (lookup_lt_is_Some_2 targets i) as [t Ht]; [lia|].
    assert (t < n) as Htn.
    { rewrite Forall_forall in Hlt. apply Hlt. by eapply list_elem_of_lookup_2. }
    cbv beta iota. rewrite (vget_of_nat _ _ _ Ht).
    rewrite assign_of_nat
      by (rewrite !length_app, length_take, !length_replicate; lia).
    rewrite flag_set_marks by done.
    simpl. eexists. split; [done|].
    rewrite (take_S_r _ _ t) by done.
    f_equal; [f_equal|lia].
    replace (k - i)%nat with (S (k - S i)) by lia.
    pose proof (insert_next_free (replicate free 0) (take i targets) []
      (k - S i) (free + i) t 0) as Hins.
    rewrite !app_nil_r in Hins. apply Hins.
    rewrite length_replicate, length_take. lia.
  - simpl. rewrite !Nat2N.id. rewrite take_ge by lia.
    replace (N.of_nat (free + k) =? n) with true
      by (symmetry; apply N.eqb_eq; lia).
    simpl. rewrite Nat.sub_diag. simpl. rewrite app_nil_r.
    pose proof (fill_rest targets n [] targets free) as Hfill.
    simpl in Hfill. change (N.of_nat 0) with 0 in Hfill.
    rewrite Hfill by lia. simpl.
    replace (N.of_nat (length (others targets n)) =? n - N.of_nat k)
      with true by (symmetry; apply N.eqb_eq; lia).
    simpl. do 2 f_equal.
    replace (free - length (others targets n))%nat with 0%nat by lia.
    done.
Qed.

(** ** permute and inverse *)

Lemma at_Ok (p : list Index) (v : Index) :
  v < psize p → at_ p v = Ok (vget p v).
Proof.
  intros Hlt. unfold at_, check.
  by replace (v <? psize p) with true by (symmetry; apply N.ltb_lt; lia).
Qed.

(** [permute] reads [this] at every entry of [permutation]. *)
Lemma permute_map (this permutation : list Index) :
  Forall (λ v, v < psize this) permutation →
  permute this permutation = Ok (vget this <$> permutation).
Proof.
  intros Hlt. unfold permute, psize, vsize.
  loop_inv (λ (j : nat) (res : list Index),
    res = (vget this <$> take j permutation)
          ++ replicate (length permutation - j) 0) Hloop.
  destruct Hloop as (res & -> & ->).
  - unfold Permutation_new. simpl. by rewrite Nat2N.id, Nat.sub_0_r.
  - intros i res Hi ->. rewrite Nat2N.id in Hi.
    destruct (lookup_lt_is_Some_2 permutation i Hi) as [v Hv].
    assert (v < psize this) as Hvn.
    { rewrite Forall_forall in Hlt. apply Hlt. by eapply list_elem_of_lookup_2. }
    cbv beta. rewrite (at_of_nat _ _ _ Hv). simpl.
    replace (v <? N.of_nat (length this)) with true
      by (symmetry; apply N.ltb_lt; unfold psize, vsize in Hvn; lia).
    simpl. rewrite at_Ok by done. simpl.
    rewrite assign_of_nat
      by (rewrite length_app, length_fmap, length_take, length_replicate; lia).
    eexists. split; [done|].
    rewrite (take_S_r _ _ v) by done. rewrite fmap_app. simpl.
    replace (length permutation - i)%nat
      with (S (length permutation - S i)) by lia.
    pose proof (insert_next_free [] (vget this <$> take i permutation) []
      (length permutation - S i) i (vget this v) 0) as Hins.
    simpl in Hins. rewrite !app_nil_r in Hins. apply Hins.
    rewrite length_fmap, length_take. lia.
  - f_equal. rewrite Nat2N.id, Nat.sub_diag, take_ge by lia.
    simpl. by rewrite app_nil_r.
Qed.

(** [inverse] of a bijection stores, at every value of [p], the position
    that holds it. *)
Lemma inverse_lookup n (p : list Index) :
  bijection n p →
  ∃ q, inverse p = Ok q ∧ length q = N.to_nat n ∧
       ∀ (i : nat) v, p !! i = Some v → q !! N.to_nat v = Some (N.of_nat i).
Proof.
  intros Hb. pose proof (bijection_length _ _ Hb) as Hlen.
  pose proof (bijection_NoDup _ _ Hb) as Hnd.
  unfold inverse, psize, vsize.
  loop_inv (λ (j : nat) (res : list Index),
    length res = N.to_nat n ∧
    ∀ (i : nat) v, (i < j)%nat → p !! i = Some v →
      res !! N.to_nat v = Some (N.of_nat i)) Hloop.
  destruct Hloop as (res & -> & Hres & Hinv).
  - split; [|intros; lia].
    unfold Permutation_new. rewrite length_replicate. lia.
  - intros i res Hi [Hres Hinv]. rewrite Nat2N.id in Hi.
    destruct (lookup_lt_is_Some_2 p i Hi) as [v Hv].
    pose proof (bijection_lookup_lt _ _ _ _ Hb Hv) as Hvn.
    rewrite (at_of_nat _ _ _ Hv). simpl.
    replace (v <? N.of_nat (length p)) with true
      by (symmetry; apply N.ltb_lt; lia).
    simpl. rewrite assign_Ok by (unfold psize, vsize; lia).
    eexists. split; [done|]. split; [by rewrite length_insert|].
    intros i' v' Hi' Hv'. destruct (decide (i' = i)) as [->|Hne].
    + simplify_eq. apply list_lookup_insert_eq. lia.
    + assert (v' ≠ v) as Hvv.
      { intros ->. apply Hne. by eapply NoDup_lookup. }
      rewrite list_lookup_insert_ne by lia. apply Hinv; [lia|done].
  - exists res. split; [done|]. split; [done|].
    intros i v Hv. apply Hinv; [|done].
    apply lookup_lt_Some in Hv. lia.
Qed.

(** Every position of the inverse holds the position of [p] where that
    position's id sits. *)
Lemma inverse_entry n (p q : list Index) (k : nat) :
  bijection n p → length q = N.to_nat n →
  (∀ (i : nat) v, p !! i = Some v → q !! N.to_nat v = Some (N.of_nat i)) →
  (k < N.to_nat n)%nat →
  ∃ i : nat, p !! i = Some (N.of_nat k) ∧ q !! k = Some (N.of_nat i).
Proof.
  intros Hb Hlen Hq Hk.
  assert (N.of_nat k ∈ p) as Hin by (apply Hb; lia).
  apply list_elem_of_lookup_1 in Hin as [i Hi].
  exists i. split; [done|]. apply Hq in Hi. by rewrite Nat2N.id in Hi.
Qed.

Lemma inverse_bijection n (p q : list Index) :
  bijection n p → length q = N.to_nat n →
  (∀ (i : nat) v, p !! i = Some v → q !! N.to_nat v = Some (N.of_nat i)) →
  bijection n q.
Proof.
  intros Hb Hlen Hq. split; [unfold psize, vsize; lia|].
  pose proof (bijection_length _ _ Hb) as Hlenp.
  intros v. split.
  - intros Hin. apply list_elem_of_lookup_1 in Hin as [k Hk].
    pose proof (lookup_lt_Some _ _ _ Hk) as Hkn.
    destruct (inverse_entry n p q k) as (i & Hi & Hqk); [done..|lia|].
    apply lookup_lt_Some in Hi. simplify_eq. lia.
  - intros Hv.
    destruct (lookup_lt_is_Some_2 p (N.to_nat v)) as [w Hw]; [lia|].
    apply Hq in Hw. rewrite N2Nat.id in Hw. by eapply list_elem_of_lookup_2.
Qed.

(** ** Shape of the results *)

Lemma bijectionb_correct n p : bijectionb n p = true → bijection n p.
Proof.
  unfold bijectionb. rewrite !andb_true_iff, !forallb_forall.
  intros [[Hs Hcover] Hlt]. apply N.eqb_eq in Hs. split; [done|].
  intros v. split.
  - intros Hv. apply N.ltb_lt, Hlt. by apply list_elem_of_In.
  - intros Hv. eapply bool_decide_unpack, Is_true_true_2, Hcover.
    by apply list_elem_of_In, elem_of_iota.
Qed.

Lemma elem_of_others targets n v : v ∈ others targets n ↔ v < n ∧ v ∉ targets.
Proof. unfold others. rewrite list_elem_of_filter, elem_of_iota. tauto. Qed.

Lemma StronglySorted_iota_from (j count : nat) :
  StronglySorted N.lt (N.of_nat <$> seq j count).
Proof.
  revert j. induction count as [|count IH]; intros j; simpl; [constructor|].
  apply StronglySorted_cons. split; [|apply IH].
  apply Forall_fmap, Forall_seq. intros i Hi. simpl. lia.
Qed.

Lemma StronglySorted_filter {A} (R : relation A) (P : A → Prop)
    `{∀ x, Decision (P x)} (l : list A) :
  StronglySorted R l → StronglySorted R (filter P l).
Proof.
  induction 1 as [|x l Hl IH Hx]; [constructor|].
  rewrite filter_cons. destruct (decide (P x)); [|done].
  constructor; [done|].
  apply Forall_forall. intros y Hy. apply list_elem_of_filter in Hy as [_ Hy].
  rewrite Forall_forall in Hx. by apply Hx.
Qed.

Lemma others_ascending targets n : StronglySorted N.lt (others targets n).
Proof. apply StronglySorted_filter, StronglySorted_iota_from. Qed.

Lemma bijection_targets_others targets n l :
  NoDup targets → Forall (λ v, v < n) targets →
  l ≡ₚ targets ++ others targets n → bijection n l.
Proof.
  intros Hnd Hlt Hl. pose proof (length_targets_others _ _ Hnd Hlt) as Hlen.
  split.
  - unfold psize, vsize. rewrite Hl, length_app. lia.
  - intros v. rewrite Hl, elem_of_app, elem_of_others.
    rewrite Forall_forall in Hlt. destruct (decide (v ∈ targets)); naive_solver.
Qed.

Lemma bijection_permute n (p q : list Index) :
  bijection n p → bijection n q → bijection n (vget p <$> q).
Proof.
  intros Hp Hq. pose proof (bijection_length _ _ Hp) as Hlp.
  pose proof (bijection_length _ _ Hq) as Hlq. split.
  - unfold psize, vsize. rewrite length_fmap. lia.
  - intros v. rewrite list_elem_of_fmap. split.
    + intros (w & -> & Hw). apply Hq in Hw.
      destruct (lookup_lt_is_Some_2 p (N.to_nat w)) as [x Hx]; [lia|].
      unfold vget. rewrite (list_lookup_total_correct _ _ _ Hx).
      exact (bijection_lookup_lt _ _ _ _ Hp Hx).
    + intros Hv. apply Hp in Hv. apply list_elem_of_lookup_1 in Hv as [i Hi].
      exists (N.of_nat i). split; [by rewrite (vget_of_nat _ _ _ Hi)|].
      apply Hq. apply lookup_lt_Some in Hi. lia.
Qed.

Lemma bijection_Forall_lt n (p : list Index) :
  bijection n p → Forall (λ v, v < n) p.
Proof. intros [_ Hp]. apply Forall_forall. intros v Hv. by apply Hp. Qed.

(** C1: every Permutation produced by [Identity n], by [PullToFront] and
    [PushToBack] on duplicate-free targets below [n], by [permute] of two
    bijections of size [n], and by [inverse] of a bijection of size [n], is
    returned (no assertion fails) and is a sequence of length [n] whose
    values are exactly the ids 0, ..., n-1. *)
Theorem C1_operations_return_bijections (n : Index) :
  n < Index_modulus →
  (∃ r, Identity n = Ok r ∧ bijection n r) ∧
  (∀ targets, NoDup targets → Forall (λ v, v < n) targets →
     (∃ r, PullToFront targets n = Ok r ∧ bijection n r) ∧
     (∃ r, PushToBack targets n = Ok r ∧ bijection n r)) ∧
  (∀ p q, bijection n p → bijection n q →
     ∃ r, permute p q = Ok r ∧ bijection n r) ∧
  (∀ p, bijection n p → ∃ r, inverse p = Ok r ∧ bijection n r).
Proof.
  intros Hn. repeat split.
  - exists (iota n). split; [apply Identity_iota|apply bijection_iota].
  - eexists. split; [by apply PullToFront_layout|].
    by apply (bijection_targets_others targets).
  - eexists. split; [by apply PushToBack_layout|].
    apply (bijection_targets_others targets); [done..|].
    apply Permutation_app_comm.
  - intros p q Hp Hq. exists (vget p <$> q).
    split; [|by apply bijection_permute].
    apply permute_map. rewrite (proj1 Hp). exact (bijection_Forall_lt _ _ Hq).
  - intros p Hp. destruct (inverse_lookup n p Hp) as (q & Hq & Hlen & Hent).
    exists q. split; [done|]. by eapply inverse_bijection.
Qed.

Lemma C1_operations_return_bijections_witness :
  (∃ r, Identity 4 = Ok r ∧ bijection 4 r) ∧
  (∃ r, PullToFront [2; 0] 4 = Ok r ∧ bijection 4 r) ∧
  (∃ r, PushToBack [2; 0] 4 = Ok r ∧ bijection 4 r) ∧
  (∃ r, permute [2; 0; 1; 3] [1; 3; 0; 2] = Ok r ∧ bijection 4 r) ∧
  (∃ r, inverse [2; 0; 1; 3] = Ok r ∧ bijection 4 r).
Proof.
  destruct (C1_operations_return_bijections 4) as (Hid & Hpp & Hperm & Hinv).
  { reflexivity. }
  assert (NoDup [2; 0]) as Hnd by compute_done.
  assert (Forall (λ v, v < 4) [2; 0]) as Hlt by compute_done.
  assert (bijection 4 [2; 0; 1; 3]) as Hp by (apply bijectionb_correct; reflexivity).
  assert (bijection 4 [1; 3; 0; 2]) as Hq by (apply bijectionb_correct; reflexivity).
  split; [exact Hid|].
  split; [exact (proj1 (Hpp _ Hnd Hlt))|].
  split; [exact (proj2 (Hpp _ Hnd Hlt))|].
  split; [exact (Hperm _ _ Hp Hq)|exact (Hinv _ Hp)].
Defined.

(** C2: for duplicate-free targets below [n], [PullToFront targets n]
    returns a permutation of length [n] in which [targets[j]] sits at position
    [j] for every j below k = length of targets, and positions k..n-1 hold
    exactly the remaining ids, in ascending order; [PullToFront [2,0] 4] is
    [[2,0,1,3]]. *)
Theorem C2_PullToFront_layout :
  (∀ (targets : list Index) (n : Index),
     NoDup targets → Forall (λ v, v < n) targets →
     ∃ r, PullToFront targets n = Ok r ∧
       length r = N.to_nat n ∧
       (∀ (j : nat) t, targets !! j = Some t → r !! j = Some t) ∧
       (∀ v, v ∈ drop (length targets) r ↔ v < n ∧ v ∉ targets) ∧
       StronglySorted N.lt (drop (length targets) r)) ∧
  PullToFront [2; 0] 4 = Ok [2; 0; 1; 3].
Proof.
  split; [|reflexivity].
  intros targets n Hnd Hlt. exists (targets ++ others targets n).
  pose proof (length_targets_others _ _ Hnd Hlt) as Hlen.
  split; [by apply PullToFront_layout|].
  rewrite drop_app_length. split; [|split; [|split]].
  - rewrite length_app. lia.
  - intros j t Hj. by apply lookup_app_l_Some.
  - intros v. apply elem_of_others.
  - apply others_ascending.
Qed.

Lemma C2_PullToFront_layout_witness :
  ∃ r, PullToFront [3; 1] 5 = Ok r ∧
    length r = 5%nat ∧
    (∀ (j : nat) t, [3; 1] !! j = Some t → r !! j = Some t) ∧
    (∀ v, v ∈ drop 2 r ↔ v < 5 ∧ v ∉ [3; 1]) ∧
    StronglySorted N.lt (drop 2 r).
Proof.
  apply (proj1 C2_PullToFront_layout [3; 1] 5); compute_done.
Defined.

(** C3: for duplicate-free targets below [n], [PushToBack targets n] returns
    a permutation of length [n] in which [targets[j]] sits at position
    [n-k+j] for every j below k = length of targets, and positions 0..n-k-1
    hold exactly the remaining ids, in ascending order; [PushToBack [2,0] 4]
    is [[1,3,2,0]]. *)
Theorem C3_PushToBack_layout :
  (∀ (targets : list Index) (n : Index),
     n < Index_modulus →
     NoDup targets → Forall (λ v, v < n) targets →
     ∃ r, PushToBack targets n = Ok r ∧
       length r = N.to_nat n ∧
       (∀ (j : nat) t, targets !! j = Some t →
          r !! (N.to_nat n - length targets + j)%nat = Some t) ∧
       (∀ v, v ∈ take (N.to_nat n - length targets) r ↔ v < n ∧ v ∉ targets) ∧
       StronglySorted N.lt (take (N.to_nat n - length targets) r)) ∧
  PushToBack [2; 0] 4 = Ok [1; 3; 2; 0].
Proof.
  split; [|reflexivity].
  intros targets n Hn Hnd Hlt. exists (others targets n ++ targets).
  pose proof (length_targets_others _ _ Hnd Hlt) as Hlen.
  split; [by apply PushToBack_layout|].
  replace (N.to_nat n - length targets)%nat with (length (others targets n)) by lia.
  rewrite take_app_length. split; [|split; [|split]].
  - rewrite length_app. lia.
  - intros j t Hj. by rewrite lookup_app_r, Nat.add_comm, Nat.add_sub by lia.
  - intros v. apply elem_of_others.
  - apply others_ascending.
Qed.

Lemma C3_PushToBack_layout_witness :
  ∃ r, PushToBack [3; 1] 5 = Ok r ∧
    length r = 5%nat ∧
    (∀ (j : nat) t, [3; 1] !! j = Some t → r !! (3 + j)%nat = Some t) ∧
    (∀ v, v ∈ take 3 r ↔ v < 5 ∧ v ∉ [3; 1]) ∧
    StronglySorted N.lt (take 3 r).
Proof.
  apply (proj1 C3_PushToBack_layout [3; 1] 5); compute_done.
Defined.

(** ** Round trips *)

Lemma permute_inverse_entries n (p q : list Index) :
  bijection n p → length q = N.to_nat n →
  (∀ (i : nat) v, p !! i = Some v → q !! N.to_nat v = Some (N.of_nat i)) →
  vget p <$> q = iota n.
Proof.
  intros Hb Hlen Hq. apply list_eq. intros k. rewrite list_lookup_fmap.
  destruct (decide (k < N.to_nat n)%nat) as [Hk|Hk].
  - destruct (inverse_entry n p q k Hb Hlen Hq Hk) as (i & Hi & ->).
    rewrite lookup_iota by done. simpl. by rewrite (vget_of_nat _ _ _ Hi).
  - rewrite (lookup_ge_None_2 q), (lookup_ge_None_2 (iota n));
      rewrite ?length_iota; [done|lia..].
Qed.

Lemma inverse_inverse_entries n (p q r : list Index) :
  bijection n p → length r = N.to_nat n →
  (∀ (i : nat) v, p !! i = Some v → q !! N.to_nat v = Some (N.of_nat i)) →
  (∀ (k : nat) w, q !! k = Some w → r !! N.to_nat w = Some (N.of_nat k)) →
  r = p.
Proof.
  intros Hb Hlen Hq Hr. pose proof (bijection_length _ _ Hb) as Hlp.
  apply list_eq. intros i.
  destruct (decide (i < N.to_nat n)%nat) as [Hi|Hi].
  - destruct (lookup_lt_is_Some_2 p i) as [v Hv]; [lia|].
    rewrite Hv. pose proof (Hr _ _ (Hq _ _ Hv)) as Hrv.
    by rewrite Nat2N.id, N2Nat.id in Hrv.
  - by rewrite (lookup_ge_None_2 r), (lookup_ge_None_2 p) by lia.
Qed.

(** C4: for a bijection [p] of size [n], [p.permute(p.inverse())] is
    [Identity(n)], [p.inverse().inverse()] is [p], and
    [Identity(n).permute(Identity(n))] is [Identity(n)]; [permute] reads
    [p] at the entries of its argument: [permute(other)[j] = p[other[j]]]. *)
Theorem C4_compose_inverse_round_trips (n : Index) (p : list Index) :
  bijection n p →
  ∃ q id,
    inverse p = Ok q ∧ Identity n = Ok id ∧
    permute p q = Ok id ∧
    inverse q = Ok p ∧
    permute id id = Ok id ∧
    (∀ other, Forall (λ v, v < n) other →
       ∃ r, permute p other = Ok r ∧ length r = length other ∧
            ∀ (j : nat) v, other !! j = Some v → r !! j = p !! N.to_nat v).
Proof.
  intros Hp. pose proof (bijection_length _ _ Hp) as Hlp.
  destruct (inverse_lookup n p Hp) as (q & Hq & Hlq & Hqe).
  pose proof (inverse_bijection n p q Hp Hlq Hqe) as Hbq.
  destruct (inverse_lookup n q Hbq) as (r & Hr & Hlr & Hre).
  exists q, (iota n). split; [done|]. split; [apply Identity_iota|].
  split; [|split; [|split]].
  - rewrite permute_map.
    + f_equal. by eapply permute_inverse_entries.
    + rewrite (proj1 Hp). by apply bijection_Forall_lt.
  - rewrite Hr. f_equal. by eapply inverse_inverse_entries.
  - rewrite permute_map.
    + f_equal. apply list_eq. intros k. rewrite list_lookup_fmap.
      destruct (decide (k < N.to_nat n)%nat) as [Hk|Hk].
      * rewrite lookup_iota by done. simpl.
        by rewrite (vget_of_nat _ _ _ (lookup_iota n k Hk)).
      * by rewrite (lookup_ge_None_2 (iota n)) by (rewrite length_iota; lia).
    + rewrite (proj1 (bijection_iota n)). apply bijection_Forall_lt, bijection_iota.
  - intros other Hother. exists (vget p <$> other). split; [|split].
    + apply permute_map. by rewrite (proj1 Hp).
    + by rewrite length_fmap.
    + intros j v Hj. rewrite list_lookup_fmap, Hj. simpl.
      rewrite Forall_forall in Hother.
      assert (v < n) as Hv by (apply Hother; by eapply list_elem_of_lookup_2).
      destruct (lookup_lt_is_Some_2 p (N.to_nat v)) as [x Hx]; [lia|].
      rewrite Hx. f_equal. unfold vget. by apply list_lookup_total_correct.
Qed.

Lemma C4_compose_inverse_round_trips_witness :
  ∃ q id,
    inverse [2; 0; 1; 3] = Ok q ∧ Identity 4 = Ok id ∧
    permute [2; 0; 1; 3] q = Ok id ∧
    inverse q = Ok [2; 0; 1; 3] ∧
    permute id id = Ok id ∧
    (∀ other, Forall (λ v, v < 4) other →
       ∃ r, permute [2; 0; 1; 3] other = Ok r ∧ length r = length other ∧
            ∀ (j : nat) v, other !! j = Some v →
              r !! j = [2; 0; 1; 3] !! N.to_nat v).
Proof.
  apply (C4_compose_inverse_round_trips 4 [2; 0; 1; 3]).
  apply bijectionb_correct. reflexivity.
Defined.

(** ** partialPermutation *)

Lemma partialPermutation_frame (p selector sub : list Index) :
  length selector = length sub →
  NoDup selector → Forall (λ v, v < psize p) selector →
  Forall (λ v, v < psize selector) sub →
  ∃ r, partialPermutation p selector sub = Ok r ∧ length r = length p ∧
    (∀ (j : nat) s t src,
       selector !! j = Some s → sub !! j = Some t →
       selector !! N.to_nat t = Some src →
       r !! N.to_nat s = p !! N.to_nat src) ∧
    (∀ i : nat, N.of_nat i ∉ selector → r !! i = p !! i).
Proof.
  intros Hlen Hnd Hsel Hsub. unfold partialPermutation, psize, vsize.
  replace (N.of_nat (length selector) =? N.of_nat (length sub)) with true
    by (symmetry; apply N.eqb_eq; lia).
  simpl.
  loop_inv (λ (k : nat) (res : list Index),
    length res = length p ∧
    (∀ (j : nat) s t src, (j < k)%nat →
       selector !! j = Some s → sub !! j = Some t →
       selector !! N.to_nat t = Some src →
       res !! N.to_nat s = p !! N.to_nat src) ∧
    (∀ i : nat, N.of_nat i ∉ selector → res !! i = p !! i)) Hloop.
  destruct Hloop as (res & -> & Hres & Hdone & Hframe).
  - split; [done|]. split; [intros; lia|done].
  - intros j res Hj (Hres & Hdone & Hframe). rewrite Nat2N.id in Hj.
    destruct (lookup_lt_is_Some_2 selector j Hj) as [s Hs].
    destruct (lookup_lt_is_Some_2 sub j) as [t Ht]; [lia|].
    pose proof (Forall_lookup_1 _ _ _ _ Hsub Ht) as Htlt. simpl in Htlt.
    destruct (lookup_lt_is_Some_2 selector (N.to_nat t)) as [src Hsrc];
      [unfold psize, vsize in Htlt; lia|].
    pose proof (Forall_lookup_1 _ _ _ _ Hsel Hsrc) as Hsrclt. simpl in Hsrclt.
    pose proof (Forall_lookup_1 _ _ _ _ Hsel Hs) as Hslt. simpl in Hslt.
    destruct (lookup_lt_is_Some_2 p (N.to_nat src)) as [x Hx];
      [unfold psize, vsize in Hsrclt; lia|].
    rewrite (at_of_nat _ _ _ Ht). simpl. rewrite (at_Some _ _ _ Hsrc). simpl.
    rewrite (at_Some _ _ _ Hx). simpl. rewrite (at_of_nat _ _ _ Hs). simpl.
    rewrite assign_Ok by (unfold psize, vsize in *; lia).
    eexists. split; [done|]. split; [by rewrite length_insert|]. split.
    + intros j' s' t' src' Hj' Hs' Ht' Hsrc'.
      destruct (decide (j' = j)) as [->|Hne].
      * simplify_eq. rewrite Hx. apply list_lookup_insert_eq.
        unfold psize, vsize in Hslt. lia.
      * assert (s' ≠ s) as Hss.
        { intros ->. apply Hne. by eapply NoDup_lookup. }
        rewrite list_lookup_insert_ne by lia. eapply Hdone; [|done..]. lia.
    + intros i Hi. rewrite list_lookup_insert_ne; [by apply Hframe|].
      intros <-. apply Hi. rewrite N2Nat.id. by eapply list_elem_of_lookup_2.
  - exists res. split; [done|]. split; [done|]. split; [|done].
    intros j s t src Hs. apply Hdone; [|done].
    apply lookup_lt_Some in Hs. lia.
Qed.

(** C5 (amended): for a bijection [p] of size [n], a duplicate-free
    [selector] with entries below [n], and a [sub] of the same length whose
    entries are below the length of [selector], [partialPermutation] returns
    an [r] of size [n] with [r[selector[j]] = p[selector[sub[j]]]] for every
    j, and [r[i] = p[i]] at every position [i] that [selector] does not
    name. *)
Theorem C5_partialPermutation_frame (n : Index) (p selector sub : list Index) :
  bijection n p →
  length selector = length sub →
  NoDup selector → Forall (λ v, v < n) selector →
  Forall (λ v, v < psize selector) sub →
  ∃ r, partialPermutation p selector sub = Ok r ∧ psize r = n ∧
    (∀ (j : nat) s t src,
       selector !! j = Some s → sub !! j = Some t →
       selector !! N.to_nat t = Some src →
       r !! N.to_nat s = p !! N.to_nat src) ∧
    (∀ i : nat, N.of_nat i ∉ selector → r !! i = p !! i).
Proof.
  intros Hp Hlen Hnd Hsel Hsub.
  destruct (partialPermutation_frame p selector sub)
    as (r & Hr & Hlr & Hw & Hf); [done..|by rewrite (proj1 Hp)|done|].
  exists r. split; [done|]. split; [|done].
  rewrite <- (proj1 Hp). unfold psize, vsize. by rewrite Hlr.
Qed.

Lemma C5_partialPermutation_frame_witness :
  ∃ r, partialPermutation [2; 0; 1; 3] [3; 1] [1; 0] = Ok r ∧ psize r = 4 ∧
    (∀ (j : nat) s t src,
       [3; 1] !! j = Some s → [1; 0] !! j = Some t →
       [3; 1] !! N.to_nat t = Some src →
       r !! N.to_nat s = [2; 0; 1; 3] !! N.to_nat src) ∧
    (∀ i : nat, N.of_nat i ∉ [3; 1] → r !! i = [2; 0; 1; 3] !! i).
Proof.
  apply (C5_partialPermutation_frame 4 [2; 0; 1; 3] [3; 1] [1; 0]).
  - apply bijectionb_correct. reflexivity.
  - reflexivity.
  - compute_done.
  - compute_done.
  - compute_done.
Defined.

(** C5, as stated, fails.  With entries of [sub] only required to be below
    [n], [sub = [2]] indexes the one-entry [selector] out of range and the
    call stops on the index check.  With a [selector] that repeats a
    position, a later write replaces an earlier one: for [selector =
    [0,0,1]] and [sub = [0,2,1]] the result holds 1 at [selector[0]], where
    [p[selector[sub[0]]]] is 0. *)
Lemma C5_partialPermutation_counterexample :
  (bijection 3 [0; 1; 2]
   ∧ length [0] = length [2]
   ∧ Forall (λ v, v < 3) [0] ∧ Forall (λ v, v < 3) [2]
   ∧ partialPermutation [0; 1; 2] [0] [2] = Abort)
  ∧
  (length [0; 0; 1] = length [0; 2; 1]
   ∧ Forall (λ v, v < 3) [0; 0; 1]
   ∧ Forall (λ v, v < 3) [0; 2; 1]
   ∧ partialPermutation [0; 1; 2] [0; 0; 1] [0; 2; 1] = Ok [1; 0; 2]
   ∧ [1; 0; 2] !! N.to_nat (vget [0; 0; 1] 0) = Some 1
   ∧ [0; 1; 2] !! N.to_nat (vget [0; 0; 1] (vget [0; 2; 1] 0)) = Some 0).
Proof.
  split.
  - split; [apply bijectionb_correct; reflexivity|].
    split; [reflexivity|]. split; [compute_done|]. split; [compute_done|].
    reflexivity.
  - split; [reflexivity|]. split; [compute_done|]. split; [compute_done|].
    split; [reflexivity|]. split; reflexivity.
Qed.

(** ** PullToFront on targets that break its contract *)

Lemma for_range_inv_or_fail {S} (r : result S) (Inv : nat → S → Prop) body count
    (j : nat) (s : S) :
  (∀ k : S → result S, bind r k = r) →
  Inv j s →
  (∀ i s, (j ≤ i < j + count)%nat → Inv i s →
     body (N.of_nat i) s = r ∨
     ∃ s', body (N.of_nat i) s = Ok s' ∧ Inv (Datatypes.S i) s') →
  for_range count (N.of_nat j) body s = r ∨
  ∃ s', for_range count (N.of_nat j) body s = Ok s' ∧ Inv (j + count)%nat s'.
Proof.
  intros Hr. revert j s.
  induction count as [|count IH]; intros j s Hinv Hstep; simpl.
  - right. exists s. by rewrite Nat.add_0_r.
  - destruct (Hstep j s) as [-> | (s' & -> & Hinv')]; [lia|done|by left|].
    simpl. replace (N.of_nat j + 1) with (N.of_nat (Datatypes.S j)) by lia.
    destruct (IH (Datatypes.S j) s') as [-> | (s'' & -> & Hfin)]; [done| |by left|].
    + intros i s0 Hi. apply Hstep. lia.
    + right. exists s''. split; [done|]. by replace (j + Datatypes.S count)%nat
        with (Datatypes.S j + count)%nat by lia.
Qed.

Lemma for_upto_inv_or_abort {S} (Inv : nat → S → Prop) body (n : Index) (s : S) :
  Inv 0%nat s →
  (∀ i s, (i < N.to_nat n)%nat → Inv i s →
     body (N.of_nat i) s = Abort ∨
     ∃ s', body (N.of_nat i) s = Ok s' ∧ Inv (Datatypes.S i) s') →
  for_upto n body s = Abort ∨
  ∃ s', for_upto n body s = Ok s' ∧ Inv (N.to_nat n) s'.
Proof.
  intros H0 Hstep. unfold for_upto.
  apply (for_range_inv_or_fail Abort Inv body (N.to_nat n) 0 s); [done|done|].
  intros i s0 Hi. apply Hstep. lia.
Qed.

Lemma for_upto_inv_or_undefined {S} (Inv : nat → S → Prop) body (n : Index) (s : S) :
  Inv 0%nat s →
  (∀ i s, (i < N.to_nat n)%nat → Inv i s →
     body (N.of_nat i) s = Undefined ∨
     ∃ s', body (N.of_nat i) s = Ok s' ∧ Inv (Datatypes.S i) s') →
  for_upto n body s = Undefined ∨
  ∃ s', for_upto n body s = Ok s' ∧ Inv (N.to_nat n) s'.
Proof.
  intros H0 Hstep. unfold for_upto.
  apply (for_range_inv_or_fail Undefined Inv body (N.to_nat n) 0 s); [done|done|].
  intros i s0 Hi. apply Hstep. lia.
Qed.

(** Runs the first loop of the goal under the invariant [Inv], allowing its
    body to stop on an assertion. *)
Ltac loop_inv_or_abort Inv H :=
  match goal with
  | |- context [for_upto ?n ?body ?s] =>
      pose proof (for_upto_inv_or_abort Inv body n s) as H
  end.

(** The same, allowing its body to leave the defined behaviour instead. *)
Ltac loop_inv_or_undefined Inv H :=
  match goal with
  | |- context [for_upto ?n ?body ?s] =>
      pose proof (for_upto_inv_or_undefined Inv body n s) as H
  end.

Lemma flag_set_Ok (flags : list bool) (t : Index) :
  t < vsize flags → flag_set flags t = Ok (<[N.to_nat t := true]> flags).
Proof.
  intros Ht. unfold flag_set.
  by replace (t <? vsize flags) with true by (symmetry; by apply N.ltb_lt).
Qed.

Lemma flag_set_Undefined (flags : list bool) (t : Index) :
  vsize flags ≤ t → flag_set flags t = Undefined.
Proof.
  intros Ht. unfold flag_set.
  by replace (t <? vsize flags) with false by (symmetry; by apply N.ltb_ge).
Qed.

(** Targets that repeat an id leave more ids unmarked than there are free
    positions. *)
Lemma length_targets_others_dup targets n :
  ¬ NoDup targets →
  (N.to_nat n < length targets + length (others targets n))%nat.
Proof.
  intros Hnd. unfold others.
  set (F := filter (λ v, v ∈ targets) (iota n)).
  assert (NoDup F) as HF by apply NoDup_filter, NoDup_iota.
  assert (F ⊆+ targets) as Hsub.
  { apply NoDup_submseteq; [done|]. intros v Hv.
    by apply list_elem_of_filter in Hv as [? _]. }
  assert (length F < length targets)%nat as Hlt.
  { pose proof (submseteq_length _ _ Hsub) as Hle.
    destruct (decide (length F = length targets)) as [Heq|]; [|lia].
    exfalso. apply Hnd.
    by rewrite <- (submseteq_length_Permutation _ _ Hsub) by lia. }
  pose proof (filter_app_complement (λ v, v ∈ targets) (iota n)) as Hsplit.
  apply Permutation_length in Hsplit.
  rewrite length_app, length_iota in Hsplit. fold F in Hsplit. lia.
Qed.

(** The loop that fills the free positions either runs past the end of the
    result, or has advanced [nextVar] once for every unmarked id. *)
Lemma fill_rest_or_abort targets n (ret : list Index) (start : Index) :
  for_upto n
    (λ j '(ret, nextVar),
       if negb (vget (marks targets n) j)
       then do ret <- assign ret nextVar j ;; Ok (ret, nextVar + 1)
       else Ok (ret, nextVar))
    (ret, start)
  = Abort ∨
  ∃ ret',
    for_upto n
      (λ j '(ret, nextVar),
         if negb (vget (marks targets n) j)
         then do ret <- assign ret nextVar j ;; Ok (ret, nextVar + 1)
         else Ok (ret, nextVar))
      (ret, start)
    = Ok (ret', start + N.of_nat (length (others targets n))).
Proof.
  set (F := λ i : nat, filter (λ v, v ∉ targets) (take i (iota n))).
  loop_inv_or_abort (λ (i : nat) (st : list Index * Index),
    st.2 = start + N.of_nat (length (F i))) Hloop.
  destruct Hloop as [-> | ([ret' nextVar] & -> & HnextVar)]; [| |by left|].
  - unfold F. simpl. lia.
  - intros i [ret' nextVar] Hi HnextVar. simpl in HnextVar. cbv beta iota.
    assert (length (F (S i))
            = (length (F i) + if decide (N.of_nat i ∈ targets) then 0 else 1)%nat)
      as HF.
    { unfold F. rewrite (take_S_r _ _ (N.of_nat i)) by by apply lookup_iota.
      rewrite filter_app, length_app. f_equal.
      destruct (decide (N.of_nat i ∈ targets)) as [Hin|Hin].
      - by rewrite filter_cons_False, filter_nil by naive_solver.
      - by rewrite filter_cons_True, filter_nil by done. }
    erewrite vget_of_nat by by apply lookup_marks.
    destruct (decide (N.of_nat i ∈ targets)) as [Hin|Hin].
    + rewrite bool_decide_eq_true_2 by done. simpl.
      right. eexists. split; [done|]. simpl. lia.
    + rewrite bool_decide_eq_false_2 by done. simpl.
      destruct (assign ret' nextVar (N.of_nat i)) as [ret''| |] eqn:Hassign.
      * right. eexists. split; [done|]. simpl. lia.
      * by left.
      * unfold assign, check, assert in Hassign.
        by destruct (nextVar <? psize ret').
  - right. exists ret'. simpl in HnextVar. rewrite HnextVar. unfold F.
    by rewrite take_ge by (rewrite length_iota; lia).
Qed.




(** ** VariableSlots *)

Lemma foldl_snoc_concat {A B} (f : A → list B) (l : list A) (acc : list B) :
  foldl (λ acc x, acc ++ f x) acc l = acc ++ concat (f <$> l).
Proof.
  revert acc. induction l as [|x l IH]; intros acc; simpl.
  - by rewrite app_nil_r.
  - by rewrite IH, app_assoc.
Qed.

Lemma print_cells (this : list (Index * list Index)) (i : Index) (cout : list item) :
  foldl (λ cout slot,
           if vget slot.2 i =? Index_max
           then cout ++ [Str "x"; Str tab]
           else cout ++ [Num (vget slot.2 i); Str tab]) cout this
  = cout ++ concat ((λ c, [c; Str tab]) <$> ((λ slot, cell (vget slot.2 i)) <$> this)).
Proof.
  revert cout. induction this as [|slot this IH]; intros cout; simpl.
  - by rewrite app_nil_r.
  - rewrite IH. unfold cell.
    destruct (vget slot.2 i =? Index_max); by rewrite <- app_assoc.
Qed.

Lemma print_rows (this : list (Index * list Index)) (l : list Index) (cout : list item) :
  foldl
    (λ cout i,
       let cout := cout ++ [Str ("    " +:+ tab)] in
       let cout :=
         foldl (λ cout slot,
                  if vget slot.2 i =? Index_max
                  then cout ++ [Str "x"; Str tab]
                  else cout ++ [Num (vget slot.2 i); Str tab])
               cout this in
       cout ++ [Str newline])
    cout l
  = cout ++ concat ((λ i, line "    " ((λ slot, cell (vget slot.2 i)) <$> this)) <$> l).
Proof.
  revert cout. induction l as [|i l IH]; intros cout; simpl.
  - by rewrite app_nil_r.
  - rewrite IH, print_cells. unfold line. simpl. by rewrite <- !app_assoc.
Qed.

Lemma row_cells (this : list (Index * list Index)) (i : nat) :
  Forall (λ slot, (i < length slot.2)%nat) this →
  Forall2 (λ slot c, ∃ v, slot.2 !! i = Some v ∧ c = cell v) this
    ((λ slot, cell (vget slot.2 (N.of_nat i))) <$> this).
Proof.
  induction 1 as [|slot this Hslot _ IH]; simpl; constructor; [|done].
  destruct (lookup_lt_is_Some_2 slot.2 i Hslot) as [v Hv].
  exists v. split; [done|]. by rewrite (vget_of_nat _ _ _ Hv).
Qed.

(** C7 (amended): an empty table prints "empty".  A non-empty table whose
    rows all have the length of the first one (the number of factors) prints
    the given header text, then a line labelled "Var:" with one column per
    variable, then one line per factor; the line of factor [i] has one cell
    per variable, which is the marker "x" when the variable's slot for
    factor [i] is the sentinel and the slot's number otherwise. *)
Theorem C7_print_layout (this : list (Index * list Index)) (str : string) :
  (this = [] → print this str = [Str "empty"; Str newline]) ∧
  (∀ first rest, this = first :: rest →
     Forall (λ slot, length slot.2 = length first.2) this →
     ∃ header rows,
       print this str
         = [Str str; Str newline] ++ line "Var:" header
           ++ concat (line "    " <$> rows) ∧
       header = (λ slot, Num slot.1) <$> this ∧
       length rows = length first.2 ∧
       ∀ (i : nat) row, rows !! i = Some row →
         Forall2 (λ slot c, ∃ v, slot.2 !! i = Some v ∧ c = cell v) this row).
Proof.
  split; [by intros ->|]. intros first rest -> Hrows.
  exists ((λ slot, Num slot.1) <$> first :: rest),
    ((λ i, (λ slot, cell (vget slot.2 i)) <$> first :: rest)
       <$> iota (vsize first.2)).
  split; [|split; [done|split]].
  - unfold print. cbv zeta. rewrite print_rows.
    rewrite (foldl_snoc_concat (λ slot, [Num slot.1; Str tab])).
    unfold line. rewrite <- !list_fmap_compose, <- !app_assoc. simpl.
    by rewrite <- !app_assoc.
  - rewrite length_fmap, length_iota. unfold vsize. lia.
  - intros i row Hrow. rewrite list_lookup_fmap in Hrow.
    destruct (iota (vsize first.2) !! i) as [i'|] eqn:Hi; [|done].
    simpl in Hrow. injection Hrow as <-.
    pose proof (lookup_lt_Some _ _ _ Hi) as Hlt.
    rewrite length_iota in Hlt. unfold vsize in Hlt. rewrite Nat2N.id in Hlt.
    rewrite lookup_iota in Hi by (unfold vsize; lia). injection Hi as <-.
    apply (row_cells (first :: rest) i).
    eapply Forall_impl; [exact Hrows|]. intros slot Hslot. simpl in Hslot. lia.
Qed.

Lemma C7_print_layout_witness :
  ∃ header rows,
    print [(0, [0; Index_max]); (1, [1; 0]); (2, [Index_max; 1])] "slots"
      = [Str "slots"; Str newline] ++ line "Var:" header
        ++ concat (line "    " <$> rows) ∧
    header = [Num 0; Num 1; Num 2] ∧
    length rows = 2%nat ∧
    ∀ (i : nat) row, rows !! i = Some row →
      Forall2 (λ slot c, ∃ v, slot.2 !! i = Some v ∧ c = cell v)
        [(0, [0; Index_max]); (1, [1; 0]); (2, [Index_max; 1])] row.
Proof.
  apply (proj2 (C7_print_layout
    [(0, [0; Index_max]); (1, [1; 0]); (2, [Index_max; 1])] "slots")
    (0, [0; Index_max]) [(1, [1; 0]); (2, [Index_max; 1])]).
  - reflexivity.
  - repeat constructor.
Defined.

(** C7, as stated, fails: the table of one variable (id 5) over two factors
    prints one column (the variable) and two rows (the factors), not one
    column per factor and one row per variable. *)
Lemma C7_print_counterexample :
  print [(5, [0; Index_max])] ""
    = [Str ""; Str newline] ++ line "Var:" [Num 5]
      ++ line "    " [Num 0] ++ line "    " [Str "x"]
  ∧ text (print [(5, [0; Index_max])] "")
    = newline +:+ "Var:" +:+ tab +:+ "5" +:+ tab +:+ newline
      +:+ "    " +:+ tab +:+ "0" +:+ tab +:+ newline
      +:+ "    " +:+ tab +:+ "x" +:+ tab +:+ newline
  ∧ length [(5, [0; Index_max])] = 1%nat
  ∧ length (snd (5, [0; Index_max])) = 2%nat.
Proof. split; [reflexivity|]. split; [vm_compute; reflexivity|]. split; reflexivity. Qed.

Lemma container_eq_spec {A} (eq : A → A → bool) (a b : list A) :
  (∀ x y, eq x y = true ↔ x = y) →
  container_eq eq a b = true ↔ a = b.
Proof.
  intros Heq. unfold container_eq, vsize. rewrite andb_true_iff, N.eqb_eq.
  revert b. induction a as [|x a IH]; intros [|y b]; simpl; try (split; [lia|done]).
  - split; [done|]. split; [done|reflexivity].
  - rewrite andb_true_iff, Heq. split.
    + intros [Hlen [-> Hall]]. f_equal. apply IH. split; [lia|done].
    + intros [= -> ->]. split; [done|]. split; [done|]. by apply IH.
Qed.

Lemma map_eq_spec (a b : list (Index * list Index)) : map_eq a b = true ↔ a = b.
Proof.
  apply container_eq_spec. intros [k v] [k' v']. simpl.
  rewrite andb_true_iff, N.eqb_eq.
  unfold vector_eq. rewrite (container_eq_spec N.eqb) by apply N.eqb_eq.
  split; [by intros [-> ->]|by intros [= -> ->]].
Qed.

(** C9: [equals] ignores its tolerance, and is the exact, structural
    comparison [*this == rhs]: the tables are equal when they hold the same
    variables with the same slots. *)
Theorem C9_equals_ignores_tolerance (a b : list (Index * list Index)) (t1 t2 : float) :
  equals a b t1 = equals a b t2 ∧
  equals a b t1 = map_eq a b ∧
  (equals a b t1 = true ↔ a = b).
Proof. split; [done|]. split; [done|]. apply map_eq_spec. Qed.

(** ** ImuFactorBase::predict *)

(** C10: whatever the pose, velocity, bias, preintegrated measurement,
    gravity, Coriolis rate and second-order flag, and whatever the geometry
    operations compute, the state returned by [predict] carries the input
    bias [bias_i] unchanged. *)
Theorem C10_predict_keeps_bias
    {Vector3 Matrix3 Rot3 Point3 Pose3 ConstantBias PreintegrationBase : Type}
    vadd vsub vscale scalev mvmul mmul scalem mneg skewSymmetric
    accelerometer gyroscope deltaTij biasHat deltaPij deltaVij
    delPdelBiasAcc delPdelBiasOmega delVdelBiasAcc delVdelBiasOmega
    biascorrectedDeltaRij rotation translation vector matrix
    Rot3_inverse Rot3_compose Logmap Expmap mkPoint3 mkPose3
    (pose_i : Pose3) (vel_i : Vector3) (bias_i : ConstantBias)
    (_PIM : PreintegrationBase) (gravity omegaCoriolis : Vector3)
    (use2ndOrderCoriolis : bool) :
  ImuFactorBase.bias
    (ImuFactorBase.predict (Matrix3:=Matrix3) (Rot3:=Rot3) (Point3:=Point3)
       vadd vsub vscale scalev mvmul mmul scalem mneg skewSymmetric
       accelerometer gyroscope deltaTij biasHat deltaPij deltaVij
       delPdelBiasAcc delPdelBiasOmega delVdelBiasAcc delVdelBiasOmega
       biascorrectedDeltaRij rotation translation vector matrix
       Rot3_inverse Rot3_compose Logmap Expmap mkPoint3 mkPose3
       pose_i vel_i bias_i _PIM gravity omegaCoriolis use2ndOrderCoriolis)
  = bias_i.
Proof.
  unfold ImuFactorBase.predict. by destruct use2ndOrderCoriolis.
Qed.

(** * Further properties of the code *)

(** ** permute: when it returns, and what *)

Lemma forallb_lt_Forall (bound : Index) (l : list Index) :
  forallb (λ v, v <? bound) l = true ↔ Forall (λ v, v < bound) l.
Proof.
  rewrite forallb_forall, Forall_forall. split.
  - intros Hall v Hv. apply N.ltb_lt, Hall. by apply list_elem_of_In.
  - intros Hall v Hv. apply N.ltb_lt, Hall. by apply list_elem_of_In.
Qed.

Lemma permute_cases (this permutation : list Index) :
  permute this permutation = Abort ∨
  ∃ r, permute this permutation = Ok r ∧
       Forall (λ v, v < psize this) permutation.
Proof.
  unfold permute, psize.
  loop_inv_or_abort (λ (j : nat) (res : list Index),
    ∀ (i : nat) v, (i < j)%nat → permutation !! i = Some v → v < vsize this) Hloop.
  destruct Hloop as [Habort | (res & Hres & Hinv)].
  - intros i v Hi. lia.
  - intros i res Hi Hinv. unfold vsize in Hi. rewrite Nat2N.id in Hi.
    destruct (lookup_lt_is_Some_2 permutation i Hi) as [v Hv].
    rewrite (at_of_nat _ _ _ Hv). simpl.
    destruct (v <? vsize this) eqn:Hlt; [|by left]. simpl.
    apply N.ltb_lt in Hlt. rewrite at_Ok by done. simpl.
    destruct (assign_cases res (N.of_nat i) (vget this v)) as [-> | [res' ->]];
      [by left|].
    right. exists res'. split; [done|]. intros i' v' Hi' Hv'.
    destruct (decide (i' = i)) as [->|Hne]; [by simplify_eq|].
    apply (Hinv i'); [lia|done].
  - by left.
  - right. exists res. split; [done|].
    apply Forall_lookup_2. intros i v Hv. apply (Hinv i); [|done].
    apply lookup_lt_Some in Hv. unfold vsize. lia.
Qed.

(** [permute] returns exactly when every entry of its argument is below the
    size of [this] (otherwise an assertion stops it); the result has the
    size of the argument, whatever the size of [this], and holds
    [this[permutation[j]]] at every position j.  Neither sequence needs to be
    a bijection. *)
Theorem permute_result (this permutation : list Index) :
  permute this permutation
  = if forallb (λ v, v <? psize this) permutation
    then Ok (vget this <$> permutation)
    else Abort.
Proof.
  destruct (forallb (λ v, v <? psize this) permutation) eqn:Hall.
  - apply permute_map. by apply forallb_lt_Forall.
  - destruct (permute_cases this permutation) as [-> | (r & _ & Hrange)]; [done|].
    apply forallb_lt_Forall in Hrange. congruence.
Qed.

(** ** Identity, composition and inverse *)

Lemma vget_lookup (l : list Index) (v x : Index) :
  l !! N.to_nat v = Some x → vget l v = x.
Proof. intros Hl. unfold vget. by apply list_lookup_total_correct. Qed.

Lemma vget_iota n (v : Index) : v < n → vget (iota n) v = v.
Proof.
  intros Hv. apply vget_lookup. rewrite lookup_iota by lia. f_equal. lia.
Qed.

(** The sequence that holds, at every value of a bijection, the position of
    that value is the one [inverse] returns. *)
Lemma inverse_unique n (p r : list Index) :
  bijection n p → length r = N.to_nat n →
  (∀ (i : nat) v, p !! i = Some v → r !! N.to_nat v = Some (N.of_nat i)) →
  inverse p = Ok r.
Proof.
  intros Hp Hlr Hr. destruct (inverse_lookup n p Hp) as (q & -> & Hlq & Hq).
  f_equal. apply list_eq. intros k.
  destruct (decide (k < N.to_nat n)%nat) as [Hk|Hk].
  - destruct (inverse_entry n p r k Hp Hlr Hr Hk) as (i & Hi & ->).
    apply Hq in Hi. by rewrite Nat2N.id in Hi.
  - by rewrite (lookup_ge_None_2 q), (lookup_ge_None_2 r) by lia.
Qed.

(** [Identity(n)] is neutral for [permute] on both sides, for sequences that
    need not be bijections, and is its own inverse. *)
Theorem Identity_neutral (n : Index) (p q : list Index) :
  psize p = n → Forall (λ v, v < n) q →
  ∃ id, Identity n = Ok id ∧
        permute p id = Ok p ∧
        permute id q = Ok q ∧
        inverse id = Ok id.
Proof.
  intros Hp Hq. exists (iota n). split; [apply Identity_iota|].
  pose proof (bijection_iota n) as Hid. split; [|split].
  - rewrite permute_map by (rewrite Hp; by apply bijection_Forall_lt).
    f_equal. apply list_eq. intros k. rewrite list_lookup_fmap.
    unfold psize, vsize in Hp.
    destruct (decide (k < N.to_nat n)%nat) as [Hk|Hk].
    + rewrite lookup_iota by done. simpl.
      destruct (lookup_lt_is_Some_2 p k) as [x Hx]; [lia|].
      by rewrite (vget_of_nat _ _ _ Hx).
    + rewrite (lookup_ge_None_2 (iota n)) by (rewrite length_iota; lia).
      by rewrite (lookup_ge_None_2 p) by lia.
  - rewrite permute_map by by rewrite (proj1 Hid).
    f_equal. rewrite <- (list_fmap_id q) at 2.
    apply Forall_fmap_ext_1. eapply Forall_impl; [exact Hq|].
    intros v Hv. by apply vget_iota.
  - apply (inverse_unique n); [done|apply length_iota|].
    intros i v Hv. pose proof (lookup_lt_Some _ _ _ Hv) as Hi.
    rewrite length_iota in Hi. rewrite lookup_iota in Hv by done.
    injection Hv as <-. rewrite Nat2N.id. by apply lookup_iota.
Qed.

Lemma Identity_neutral_witness :
  ∃ id, Identity 3 = Ok id ∧
        permute [7; 7; 9] id = Ok [7; 7; 9] ∧
        permute id [2; 2; 0; 1] = Ok [2; 2; 0; 1] ∧
        inverse id = Ok id.
Proof.
  apply (Identity_neutral 3 [7; 7; 9] [2; 2; 0; 1]); [reflexivity|compute_done].
Defined.

(** [permute] is associative: composing [p] with [q] and then with [r] is
    composing [p] with the composition of [q] and [r], whenever the entries
    of [q] index [p] and the entries of [r] index [q]. *)
Theorem permute_assoc (p q r : list Index) :
  Forall (λ v, v < psize p) q → Forall (λ v, v < psize q) r →
  ∃ pq qr res,
    permute p q = Ok pq ∧ permute q r = Ok qr ∧
    permute pq r = Ok res ∧ permute p qr = Ok res.
Proof.
  intros Hq Hr. exists (vget p <$> q), (vget q <$> r), (vget p <$> (vget q <$> r)).
  split; [by apply permute_map|]. split; [by apply permute_map|]. split.
  - rewrite permute_map by (unfold psize, vsize; by rewrite length_fmap).
    f_equal. rewrite <- list_fmap_compose. apply Forall_fmap_ext_1.
    eapply Forall_impl; [exact Hr|]. intros v Hv. simpl.
    unfold psize, vsize in Hv.
    destruct (lookup_lt_is_Some_2 q (N.to_nat v)) as [w Hw]; [lia|].
    rewrite (vget_lookup q v w Hw). apply vget_lookup.
    by rewrite list_lookup_fmap, Hw.
  - apply permute_map. apply Forall_fmap. eapply Forall_impl; [exact Hr|].
    intros v Hv. simpl. unfold psize, vsize in Hv.
    destruct (lookup_lt_is_Some_2 q (N.to_nat v)) as [w Hw]; [lia|].
    rewrite (vget_lookup q v w Hw).
    exact (Forall_lookup_1 _ _ _ _ Hq Hw).
Qed.

Lemma permute_assoc_witness :
  ∃ pq qr res,
    permute [5; 6; 7] [2; 0; 0; 1] = Ok pq ∧
    permute [2; 0; 0; 1] [3; 3; 1] = Ok qr ∧
    permute pq [3; 3; 1] = Ok res ∧ permute [5; 6; 7] qr = Ok res.
Proof.
  apply (permute_assoc [5; 6; 7] [2; 0; 0; 1] [3; 3; 1]); compute_done.
Defined.

(** [inverse] is a two-sided inverse: for a bijection [p],
    [p.inverse().permute(p)] is the identity as well, and the inverse of a
    composition is the composition of the inverses in the opposite order. *)
Theorem inverse_permute (n : Index) (p q : list Index) :
  bijection n p → bijection n q →
  ∃ pinv qinv pq id,
    inverse p = Ok pinv ∧ inverse q = Ok qinv ∧
    Identity n = Ok id ∧ permute pinv p = Ok id ∧
    permute p q = Ok pq ∧
    ∃ r, permute qinv pinv = Ok r ∧ inverse pq = Ok r.
Proof.
  intros Hp Hq.
  pose proof (bijection_length _ _ Hp) as Hlp.
  pose proof (bijection_length _ _ Hq) as Hlq.
  destruct (inverse_lookup n p Hp) as (pinv & Hpi & Hlpi & Hpe).
  destruct (inverse_lookup n q Hq) as (qinv & Hqi & Hlqi & Hqe).
  pose proof (inverse_bijection _ _ _ Hp Hlpi Hpe) as Hbpi.
  pose proof (inverse_bijection _ _ _ Hq Hlqi Hqe) as Hbqi.
  exists pinv, qinv, (vget p <$> q), (iota n).
  split; [done|]. split; [done|]. split; [apply Identity_iota|]. split; [|split].
  - rewrite permute_map
      by (rewrite (proj1 Hbpi); by apply bijection_Forall_lt).
    f_equal. apply list_eq. intros j. rewrite list_lookup_fmap.
    destruct (decide (j < N.to_nat n)%nat) as [Hj|Hj].
    + destruct (lookup_lt_is_Some_2 p j) as [v Hv]; [lia|].
      rewrite Hv, lookup_iota by done. simpl. f_equal.
      apply vget_lookup. by apply Hpe.
    + rewrite (lookup_ge_None_2 p) by lia.
      by rewrite (lookup_ge_None_2 (iota n)) by (rewrite length_iota; lia).
  - apply permute_map. rewrite (proj1 Hp). by apply bijection_Forall_lt.
  - exists (vget qinv <$> pinv). split.
    + apply permute_map. rewrite (proj1 Hbqi). by apply bijection_Forall_lt.
    + apply (inverse_unique n); [by apply bijection_permute| |].
      * rewrite length_fmap. lia.
      * intros i v Hv. rewrite list_lookup_fmap in Hv.
        destruct (q !! i) as [w|] eqn:Hw; [|done]. injection Hv as <-.
        pose proof (bijection_lookup_lt _ _ _ _ Hq Hw) as Hwn.
        destruct (lookup_lt_is_Some_2 p (N.to_nat w)) as [x Hx]; [lia|].
        rewrite (vget_lookup p w x Hx). rewrite list_lookup_fmap.
        pose proof (Hpe _ _ Hx) as Hpx. rewrite N2Nat.id in Hpx.
        rewrite Hpx. simpl. f_equal. apply vget_lookup. by apply Hqe.
Qed.

Lemma inverse_permute_witness :
  ∃ pinv qinv pq id,
    inverse [2; 0; 1; 3] = Ok pinv ∧ inverse [1; 3; 0; 2] = Ok qinv ∧
    Identity 4 = Ok id ∧ permute pinv [2; 0; 1; 3] = Ok id ∧
    permute [2; 0; 1; 3] [1; 3; 0; 2] = Ok pq ∧
    ∃ r, permute qinv pinv = Ok r ∧ inverse pq = Ok r.
Proof.
  apply (inverse_permute 4 [2; 0; 1; 3] [1; 3; 0; 2]);
    apply bijectionb_correct; reflexivity.
Defined.

(** ** inverse on sequences that are not bijections *)

Lemma inverse_cases (p : list Index) :
  inverse p = Abort ∨
  ∃ q, inverse p = Ok q ∧ Forall (λ v, v < psize p) p.
Proof.
  unfold inverse.
  loop_inv_or_abort (λ (j : nat) (res : list Index),
    ∀ (i : nat) v, (i < j)%nat → p !! i = Some v → v < psize p) Hloop.
  destruct Hloop as [Habort | (res & Hres & Hinv)].
  - intros i v Hi. lia.
  - intros i res Hi Hinv. unfold psize, vsize in Hi. rewrite Nat2N.id in Hi.
    destruct (lookup_lt_is_Some_2 p i Hi) as [v Hv].
    rewrite (at_of_nat _ _ _ Hv). simpl.
    destruct (v <? psize p) eqn:Hlt; [|by left]. simpl.
    apply N.ltb_lt in Hlt.
    destruct (assign_cases res v (N.of_nat i)) as [-> | [res' ->]]; [by left|].
    right. exists res'. split; [done|]. intros i' v' Hi' Hv'.
    destruct (decide (i' = i)) as [->|Hne]; [by simplify_eq|].
    apply (Hinv i'); [lia|done].
  - by left.
  - right. exists res. split; [done|].
    apply Forall_lookup_2. intros i v Hv. apply (Hinv i); [|done].
    apply lookup_lt_Some in Hv. unfold psize, vsize. lia.
Qed.

(** [inverse] checks the range of the entries and nothing else.  An entry
    that is not below the size stops it on the assertion.  Otherwise it
    returns, also when entries repeat: the result has the size of [p], holds
    at every value of [p] the last position with that value, and keeps the
    initial 0 at the values that [p] does not have. *)
Theorem inverse_result (p : list Index) :
  (Exists (λ v, psize p ≤ v) p → inverse p = Abort) ∧
  (Forall (λ v, v < psize p) p →
   ∃ q, inverse p = Ok q ∧ length q = length p ∧
     (∀ (i : nat) v, p !! i = Some v →
        (∀ j : nat, (i < j)%nat → p !! j ≠ Some v) →
        q !! N.to_nat v = Some (N.of_nat i)) ∧
     (∀ v, v < psize p → v ∉ p → q !! N.to_nat v = Some 0)).
Proof.
  split.
  - intros Hex. destruct (inverse_cases p) as [-> | (q & _ & Hrun)]; [done|].
    rewrite Forall_forall in Hrun.
    apply Exists_exists in Hex as (v & Hv & Hge). specialize (Hrun v Hv).
    simpl in *. lia.
  - intros Hlt. unfold inverse.
    loop_inv (λ (k : nat) (res : list Index),
      length res = length p ∧
      (∀ (i : nat) v, (i < k)%nat → p !! i = Some v →
         (∀ j : nat, (i < j < k)%nat → p !! j ≠ Some v) →
         res !! N.to_nat v = Some (N.of_nat i)) ∧
      (∀ v, v < psize p →
         (∀ i : nat, (i < k)%nat → p !! i ≠ Some v) →
         res !! N.to_nat v = Some 0)) Hloop.
    destruct Hloop as (res & -> & Hlen & Hlast & Hnone).
    + split; [|split].
      * unfold Permutation_new, psize, vsize. rewrite length_replicate. lia.
      * intros; lia.
      * intros v Hv _. unfold Permutation_new. apply lookup_replicate_2.
        unfold psize, vsize in *. lia.
    + intros k res Hk (Hlen & Hlast & Hnone).
      unfold psize, vsize in Hk. rewrite Nat2N.id in Hk.
      destruct (lookup_lt_is_Some_2 p k Hk) as [w Hw].
      pose proof (Forall_lookup_1 _ _ _ _ Hlt Hw) as Hwn. simpl in Hwn.
      rewrite (at_of_nat _ _ _ Hw). simpl.
      replace (w <? psize p) with true by (symmetry; by apply N.ltb_lt).
      simpl. rewrite assign_Ok by (unfold psize, vsize in *; lia).
      eexists. split; [done|]. split; [by rewrite length_insert|]. split.
      * intros i v Hi Hv Hlater. destruct (decide (i = k)) as [->|Hne].
        -- simplify_eq. apply list_lookup_insert_eq.
           unfold psize, vsize in Hwn. lia.
        -- assert (w ≠ v) as Hwv.
           { intros ->. apply (Hlater k); [lia|done]. }
           rewrite list_lookup_insert_ne by lia.
           apply Hlast; [lia|done|]. intros j Hj. apply Hlater. lia.
      * intros v Hv Habsent.
        assert (w ≠ v) as Hwv by (intros ->; by apply (Habsent k); [lia|]).
        rewrite list_lookup_insert_ne by lia.
        apply Hnone; [done|]. intros i Hi. apply Habsent. lia.
    + exists res. split; [done|]. split; [done|]. split.
      * intros i v Hv Hlater. apply Hlast; [|done|by intros j [? _]; apply Hlater].
        apply lookup_lt_Some in Hv. unfold psize, vsize. lia.
      * intros v Hv Hnot. apply Hnone; [done|].
        intros i _ Hi. apply Hnot. by eapply list_elem_of_lookup_2.
Qed.

Lemma inverse_result_witness :
  inverse [0; 5] = Abort ∧
  ∃ q, inverse [1; 1; 0; 1] = Ok q ∧ length q = 4%nat ∧
    (∀ (i : nat) v, [1; 1; 0; 1] !! i = Some v →
       (∀ j : nat, (i < j)%nat → [1; 1; 0; 1] !! j ≠ Some v) →
       q !! N.to_nat v = Some (N.of_nat i)) ∧
    (∀ v, v < 4 → v ∉ [1; 1; 0; 1] → q !! N.to_nat v = Some 0).
Proof.
  split.
  - apply (proj1 (inverse_result [0; 5])). compute_done.
  - apply (proj2 (inverse_result [1; 1; 0; 1])). compute_done.
Defined.

(** ** PullToFront and PushToBack at the ends of their range *)

Lemma others_nil n : others [] n = iota n.
Proof.
  unfold others. induction (iota n) as [|v l IH]; [done|].
  rewrite filter_cons_True by apply not_elem_of_nil. by rewrite IH.
Qed.

Lemma others_bijection n (p : list Index) : bijection n p → others p n = [].
Proof.
  intros Hp. apply nil_length_inv.
  pose proof (length_targets_others p n (bijection_NoDup _ _ Hp)
                (bijection_Forall_lt _ _ Hp)) as Hlen.
  pose proof (bijection_length _ _ Hp). lia.
Qed.

(** With no targets, [PullToFront] and [PushToBack] both return the identity
    of size [n]. *)
Theorem no_targets_Identity (n : Index) :
  n < Index_modulus →
  ∃ id, Identity n = Ok id ∧ PullToFront [] n = Ok id ∧ PushToBack [] n = Ok id.
Proof.
  intros Hn. exists (iota n). split; [apply Identity_iota|]. split.
  - rewrite PullToFront_layout by (constructor || apply NoDup_nil_2).
    by rewrite others_nil.
  - rewrite PushToBack_layout by (done || constructor || apply NoDup_nil_2).
    by rewrite others_nil, app_nil_r.
Qed.

Lemma no_targets_Identity_witness :
  ∃ id, Identity 5 = Ok id ∧ PullToFront [] 5 = Ok id ∧ PushToBack [] 5 = Ok id.
Proof. apply (no_targets_Identity 5). reflexivity. Defined.

(** When the targets are all [n] variables (a bijection of size [n]),
    [PullToFront] and [PushToBack] both return the targets as they are. *)
Theorem all_targets_unchanged (n : Index) (p : list Index) :
  n < Index_modulus → bijection n p →
  PullToFront p n = Ok p ∧ PushToBack p n = Ok p.
Proof.
  intros Hn Hp. pose proof (bijection_NoDup _ _ Hp) as Hnd.
  pose proof (bijection_Forall_lt _ _ Hp) as Hlt. split.
  - rewrite PullToFront_layout by done. by rewrite others_bijection, app_nil_r.
  - rewrite PushToBack_layout by done. by rewrite others_bijection.
Qed.

Lemma all_targets_unchanged_witness :
  PullToFront [2; 0; 3; 1] 4 = Ok [2; 0; 3; 1] ∧
  PushToBack [2; 0; 3; 1] 4 = Ok [2; 0; 3; 1].
Proof.
  apply (all_targets_unchanged 4 [2; 0; 3; 1]); [reflexivity|].
  apply bijectionb_correct. reflexivity.
Defined.

(** The inverse of a [PullToFront] permutation sends every target to its
    rank among the targets, and the inverse of a [PushToBack] permutation
    sends it to [n - k] plus its rank: this is the relabelling under which
    the targets become the first, or the last, [k] variables. *)
Theorem inverse_of_pull_and_push (targets : list Index) (n : Index) :
  n < Index_modulus →
  NoDup targets → Forall (λ v, v < n) targets →
  (∃ r q, PullToFront targets n = Ok r ∧ inverse r = Ok q ∧
     ∀ (j : nat) t, targets !! j = Some t →
       q !! N.to_nat t = Some (N.of_nat j)) ∧
  (∃ r q, PushToBack targets n = Ok r ∧ inverse r = Ok q ∧
     ∀ (j : nat) t, targets !! j = Some t →
       q !! N.to_nat t = Some (n - vsize targets + N.of_nat j)).
Proof.
  intros Hn Hnd Hlt. pose proof (length_targets_others _ _ Hnd Hlt) as Hlen.
  split.
  - assert (bijection n (targets ++ others targets n)) as Hb
      by by apply (bijection_targets_others targets).
    destruct (inverse_lookup n _ Hb) as (q & Hq & _ & Hqe).
    exists (targets ++ others targets n), q.
    split; [by apply PullToFront_layout|]. split; [done|].
    intros j t Hj. apply Hqe. by apply lookup_app_l_Some.
  - assert (bijection n (others targets n ++ targets)) as Hb.
    { apply (bijection_targets_others targets); [done..|].
      apply Permutation_app_comm. }
    destruct (inverse_lookup n _ Hb) as (q & Hq & _ & Hqe).
    exists (others targets n ++ targets), q.
    split; [by apply PushToBack_layout|]. split; [done|].
    intros j t Hj.
    replace (n - vsize targets + N.of_nat j)
      with (N.of_nat (length (others targets n) + j)) by (unfold vsize; lia).
    apply Hqe. by rewrite lookup_app_r, Nat.add_comm, Nat.add_sub by lia.
Qed.

Lemma inverse_of_pull_and_push_witness :
  (∃ r q, PullToFront [3; 1] 5 = Ok r ∧ inverse r = Ok q ∧
     ∀ (j : nat) t, [3; 1] !! j = Some t →
       q !! N.to_nat t = Some (N.of_nat j)) ∧
  (∃ r q, PushToBack [3; 1] 5 = Ok r ∧ inverse r = Ok q ∧
     ∀ (j : nat) t, [3; 1] !! j = Some t →
       q !! N.to_nat t = Some (5 - vsize [3; 1] + N.of_nat j)).
Proof.
  apply (inverse_of_pull_and_push [3; 1] 5); [reflexivity|compute_done..].
Defined.

(** ** PushToBack on targets that break its contract *)

Lemma for_upto_Abort_first {S} (n : Index) (body : Index → S → result S) (s : S) :
  0 < n → body 0 s = Abort → for_upto n body s = Abort.
Proof.
  intros Hn Hbody. unfold for_upto.
  destruct (N.to_nat n) as [|count] eqn:Hcount; [lia|]. simpl. by rewrite Hbody.
Qed.

Lemma Index_sub_wrap (a b : Index) :
  a < b → b < Index_modulus → Index_sub a b = a + Index_modulus - b.
Proof. intros Hab Hb. unfold Index_sub. apply N.mod_small. lia. Qed.

(** When the targets contain a duplicate id or an id that is not below [n],
    [PushToBack] never returns a permutation either.  With more targets
    than variables the first write misses the result, and with targets
    below [n] that repeat an id the second loop ends with a count that fails
    the final [assert(nextVar == size - toBack.size())]: both stop on an
    assertion.  With at most [n] targets of which one is not below [n], the
    flag of that id is written outside the flag vector, through an
    [operator[]] that has no check: the behaviour is undefined, and no
    assertion is reached before it. *)
Theorem PushToBack_contract_violation (targets : list Index) (n : Index) :
  n < Index_modulus → vsize targets < Index_modulus →
  ¬ NoDup targets ∨ Exists (λ v, n ≤ v) targets →
  (n < vsize targets ∨ Forall (λ v, v < n) targets →
   PushToBack targets n = Abort) ∧
  (vsize targets ≤ n → Exists (λ v, n ≤ v) targets →
   PushToBack targets n = Undefined).
Proof.
  intros Hn Hk Hbad. split.
  - intros Hcase. unfold PushToBack.
    destruct (decide (vsize targets ≤ n)) as [Hle|Hgt].
    + assert (Forall (λ v, v < n) targets) as Hlt by (destruct Hcase; [lia|done]).
      assert (¬ NoDup targets) as Hnd.
      { destruct Hbad as [|Hex]; [done|]. exfalso.
        apply Exists_exists in Hex as (v & Hv & Hge).
        rewrite Forall_forall in Hlt. specialize (Hlt v Hv). simpl in *. lia. }
      rewrite Index_sub_small by done.
      loop_inv_or_abort (λ (j : nat) (st : list Index * list bool * Index),
        st.1.2 = marks (take j targets) n) Hloop.
      destruct Hloop as [-> | ([[ret pushed] nextVar] & -> & Hpushed)];
        [by rewrite marks_nil| |done|].
      { intros i [[ret pushed] nextVar] Hi Hpushed. simpl in Hpushed.
        unfold vsize in Hi. rewrite Nat2N.id in Hi.
        destruct (lookup_lt_is_Some_2 targets i Hi) as [t Ht].
        assert (t < n) as Htn.
        { rewrite Forall_forall in Hlt. apply Hlt. by eapply list_elem_of_lookup_2. }
        cbv beta iota. rewrite (vget_of_nat _ _ _ Ht).
        destruct (assign_cases ret nextVar t) as [-> | [ret' ->]]; [by left|].
        right. rewrite Hpushed, flag_set_marks by done. simpl.
        eexists. split; [done|]. simpl. by rewrite (take_S_r _ _ t). }
      simpl in Hpushed. simpl.
      unfold vsize in Hpushed. rewrite Nat2N.id, firstn_all in Hpushed.
      rewrite Hpushed.
      destruct (nextVar =? n); [|done]. simpl.
      destruct (fill_rest_or_abort targets n ret 0) as [-> | (ret' & ->)]; [done|].
      simpl.
      pose proof (length_targets_others_dup targets n Hnd) as Hmore.
      by replace (0 + N.of_nat (length (others targets n)) =? n - vsize targets)
        with false by (symmetry; apply N.eqb_neq; unfold vsize in *; lia).
    + rewrite Index_sub_wrap by lia.
      destruct targets as [|t targets]; [unfold vsize in Hgt; simpl in Hgt; lia|].
      rewrite for_upto_Abort_first; [done|unfold vsize; simpl; lia|].
      cbv beta iota. rewrite assign_Abort; [done|].
      unfold psize, vsize, Permutation_new in *. rewrite length_replicate. lia.
  - intros Hle Hex. unfold PushToBack. rewrite Index_sub_small by done.
    loop_inv_or_undefined (λ (j : nat) (st : list Index * list bool * Index),
      length st.1.1 = N.to_nat n ∧ length st.1.2 = N.to_nat n ∧
      st.2 = n - vsize targets + N.of_nat j ∧
      Forall (λ v, v < n) (take j targets)) Hloop.
    destruct Hloop as [-> | ([[ret pushed] nextVar] & _ & _ & _ & _ & Hall)];
      [| |done|].
    { unfold Permutation_new. simpl. rewrite !length_replicate.
      split; [done|]. split; [done|]. split; [lia|constructor]. }
    { intros i [[ret pushed] nextVar] Hi (Hret & Hpushed & Hnext & Hall).
      simpl in Hret, Hpushed, Hnext, Hall. subst nextVar.
      unfold vsize in Hi. rewrite Nat2N.id in Hi.
      destruct (lookup_lt_is_Some_2 targets i Hi) as [t Ht].
      cbv beta iota. rewrite (vget_of_nat _ _ _ Ht).
      rewrite assign_Ok by (unfold psize, vsize in *; lia).
      destruct (decide (t < n)) as [Htn | Htn].
      - right. rewrite flag_set_Ok by (unfold vsize; lia). simpl.
        eexists. split; [done|]. simpl. rewrite !length_insert.
        split; [done|]. split; [done|]. split; [lia|].
        rewrite (take_S_r _ _ t) by done. apply Forall_app. split; [done|].
        by constructor.
      - left. by rewrite flag_set_Undefined by (unfold vsize; lia). }
    exfalso. simpl in Hall. unfold vsize in Hall.
    rewrite Nat2N.id, firstn_all in Hall.
    apply Exists_exists in Hex as (v & Hv & Hge).
    rewrite Forall_forall in Hall. specialize (Hall v Hv). simpl in *. lia.
Qed.

Lemma PushToBack_contract_violation_witness :
  PushToBack [2; 2] 4 = Abort ∧
  PushToBack [0; 1; 2; 5] 3 = Abort ∧
  PushToBack [1; 5] 3 = Undefined.
Proof.
  split; [|split].
  - apply (PushToBack_contract_violation [2; 2] 4); [reflexivity..|left|right];
      compute_done.
  - apply (PushToBack_contract_violation [0; 1; 2; 5] 3); [reflexivity..|right|left];
      compute_done.
  - apply (PushToBack_contract_violation [1; 5] 3); [reflexivity..|right| |];
      compute_done.
Defined.

(** ** partialPermutation: when it returns, and what it keeps *)

Lemma partialPermutation_Ok_conditions (this selector sub r : list Index) :
  partialPermutation this selector sub = Ok r →
  length selector = length sub ∧
  Forall (λ v, v < psize selector) sub ∧
  Forall (λ v, v < psize this) selector.
Proof.
  unfold partialPermutation, psize.
  destruct (vsize selector =? vsize sub) eqn:Hlen; [|done].
  apply N.eqb_eq in Hlen. unfold vsize in Hlen. simpl.
  loop_inv_or_abort (λ (j : nat) (res : list Index),
    length res = length this ∧
    ∀ (i : nat) t s, (i < j)%nat → sub !! i = Some t → selector !! i = Some s →
      t < vsize selector ∧ s < vsize this) Hloop.
  intros Hrun. destruct Hloop as [Habort | (res & Hres & _ & Hinv)].
  - split; [done|]. intros; lia.
  - intros i res Hi [Hlres Hinv]. unfold vsize in Hi. rewrite Nat2N.id in Hi.
    destruct (lookup_lt_is_Some_2 selector i Hi) as [s Hs].
    destruct (lookup_lt_is_Some_2 sub i) as [t Ht]; [lia|].
    rewrite (at_of_nat _ _ _ Ht). simpl.
    destruct (decide (t < psize selector)) as [Htlt|Htge];
      [|left; by rewrite at_Abort by lia].
    rewrite at_Ok by done. simpl.
    destruct (decide (vget selector t < psize this)) as [Hsrc|Hsrc];
      [|left; by rewrite at_Abort by lia].
    rewrite at_Ok by done. simpl. rewrite (at_of_nat _ _ _ Hs). simpl.
    destruct (decide (s < psize res)) as [Hslt|Hsge];
      [|left; by rewrite assign_Abort by lia].
    rewrite assign_Ok by done. right. eexists. split; [done|].
    split; [by rewrite length_insert|].
    intros i' t' s' Hi' Ht' Hs'. destruct (decide (i' = i)) as [->|Hne].
    + simplify_eq. unfold psize, vsize in *. split; lia.
    + apply (Hinv i'); [lia|done..].
  - by rewrite Hrun in Habort.
  - split; [lia|]. split; apply Forall_lookup_2; intros i x Hx.
    + pose proof (lookup_lt_Some _ _ _ Hx) as Hi.
      destruct (lookup_lt_is_Some_2 selector i) as [s Hs]; [lia|].
      apply (Hinv i x s); [unfold vsize; lia|done..].
    + pose proof (lookup_lt_Some _ _ _ Hx) as Hi.
      destruct (lookup_lt_is_Some_2 sub i) as [t Ht]; [lia|].
      apply (Hinv i t x); [unfold vsize; lia|done..].
Qed.

Lemma partialPermutation_Ok (this selector sub : list Index) :
  length selector = length sub →
  Forall (λ v, v < psize selector) sub →
  Forall (λ v, v < psize this) selector →
  ∃ r, partialPermutation this selector sub = Ok r ∧ length r = length this.
Proof.
  intros Hlen Hsub Hsel. unfold partialPermutation, psize.
  replace (vsize selector =? vsize sub) with true
    by (symmetry; apply N.eqb_eq; unfold vsize; lia).
  simpl.
  loop_inv (λ (j : nat) (res : list Index), length res = length this) Hloop.
  destruct Hloop as (res & -> & Hres); [done| |by exists res].
  intros i res Hi Hres. unfold vsize in Hi. rewrite Nat2N.id in Hi.
  destruct (lookup_lt_is_Some_2 selector i Hi) as [s Hs].
  destruct (lookup_lt_is_Some_2 sub i) as [t Ht]; [lia|].
  pose proof (Forall_lookup_1 _ _ _ _ Hsub Ht) as Htlt. simpl in Htlt.
  destruct (lookup_lt_is_Some_2 selector (N.to_nat t)) as [src Hsrc];
    [unfold psize, vsize in Htlt; lia|].
  pose proof (Forall_lookup_1 _ _ _ _ Hsel Hsrc) as Hsrclt. simpl in Hsrclt.
  pose proof (Forall_lookup_1 _ _ _ _ Hsel Hs) as Hslt. simpl in Hslt.
  rewrite (at_of_nat _ _ _ Ht). simpl. rewrite (at_Some _ _ _ Hsrc). simpl.
  rewrite at_Ok by done. simpl. rewrite (at_of_nat _ _ _ Hs). simpl.
  rewrite assign_Ok by (unfold psize, vsize in *; lia).
  eexists. split; [done|]. by rewrite length_insert.
Qed.

(** [partialPermutation] returns exactly when [selector] and the partial
    permutation have the same size, every entry of the partial permutation
    is a position of [selector], and every entry of [selector] is a position
    of [this]; any other call is stopped by an assertion.  What it returns
    has the size of [this]. *)
Theorem partialPermutation_returns (this selector sub : list Index) :
  ((∃ r, partialPermutation this selector sub = Ok r)
   ↔ length selector = length sub ∧
     Forall (λ v, v < psize selector) sub ∧
     Forall (λ v, v < psize this) selector) ∧
  (∀ r, partialPermutation this selector sub = Ok r → psize r = psize this).
Proof.
  split; [split|].
  - intros [r Hr]. by eapply partialPermutation_Ok_conditions.
  - intros (Hlen & Hsub & Hsel).
    destruct (partialPermutation_Ok this selector sub) as (r & Hr & _); eauto.
  - intros r Hr.
    destruct (partialPermutation_Ok_conditions _ _ _ _ Hr) as (Hlen & Hsub & Hsel).
    destruct (partialPermutation_Ok this selector sub Hlen Hsub Hsel)
      as (r' & Hr' & Hlr).
    rewrite Hr in Hr'. injection Hr' as <-. unfold psize, vsize. by rewrite Hlr.
Qed.

(** The identity as partial permutation changes nothing: with
    [partialPermutation = Identity(selector.size())] the result is [this],
    also when [selector] names a position more than once. *)
Theorem partialPermutation_Identity (this selector : list Index) :
  Forall (λ v, v < psize this) selector →
  ∃ id, Identity (psize selector) = Ok id ∧
        partialPermutation this selector id = Ok this.
Proof.
  intros Hsel. exists (iota (psize selector)). split; [apply Identity_iota|].
  unfold partialPermutation.
  replace (psize selector =? psize (iota (psize selector))) with true.
  2: { symmetry. apply N.eqb_eq. unfold psize, vsize.
       rewrite length_iota. lia. }
  simpl.
  loop_inv (λ (j : nat) (res : list Index), res = this) Hloop.
  destruct Hloop as (res & -> & ->); [done| |done].
  intros i res Hi ->. unfold psize, vsize in Hi. rewrite Nat2N.id in Hi.
  destruct (lookup_lt_is_Some_2 selector i Hi) as [s Hs].
  pose proof (Forall_lookup_1 _ _ _ _ Hsel Hs) as Hslt. simpl in Hslt.
  destruct (lookup_lt_is_Some_2 this (N.to_nat s)) as [x Hx];
    [unfold psize, vsize in Hslt; lia|].
  rewrite (at_of_nat _ _ (N.of_nat i))
    by (apply lookup_iota; unfold psize, vsize; lia).
  simpl. rewrite (at_of_nat _ _ _ Hs). simpl.
  rewrite (at_Some _ _ _ Hx). simpl.
  rewrite assign_Ok by done. eexists. split; [done|].
  by apply list_insert_id.
Qed.

Lemma partialPermutation_Identity_witness :
  ∃ id, Identity (psize [3; 1; 3]) = Ok id ∧
        partialPermutation [2; 0; 1; 3] [3; 1; 3] id = Ok [2; 0; 1; 3].
Proof.
  apply (partialPermutation_Identity [2; 0; 1; 3] [3; 1; 3]). compute_done.
Defined.

(** [partialPermutation] keeps the bijection invariant when it is used as
    meant: on a bijection [p] of size [n], with a duplicate-free [selector]
    of positions of [p], and a partial permutation that is itself a
    bijection of the size of [selector], the result is a bijection of size
    [n]. *)
Theorem partialPermutation_bijection (n : Index) (p selector sub : list Index) :
  bijection n p →
  NoDup selector → Forall (λ v, v < n) selector →
  bijection (psize selector) sub →
  ∃ r, partialPermutation p selector sub = Ok r ∧ bijection n r.
Proof.
  intros Hp Hnd Hsel Hsub.
  pose proof (bijection_length _ _ Hp) as Hlp.
  pose proof (bijection_length _ _ Hsub) as Hls.
  unfold psize, vsize in Hls. rewrite Nat2N.id in Hls.
  destruct (partialPermutation_frame p selector sub)
    as (r & Hr & Hlr & Hw & Hf);
    [done|done|by rewrite (proj1 Hp)|by apply bijection_Forall_lt|].
  exists r. split; [done|]. split; [unfold psize, vsize; lia|].
  intros v. split.
  - intros [k Hk]%list_elem_of_lookup_1.
    destruct (decide (N.of_nat k ∈ selector)) as [Hin|Hnin].
    + apply list_elem_of_lookup_1 in Hin as [j Hj].
      destruct (lookup_lt_is_Some_2 sub j) as [t Ht];
        [apply lookup_lt_Some in Hj; lia|].
      pose proof (bijection_lookup_lt _ _ _ _ Hsub Ht) as Htlt.
      destruct (lookup_lt_is_Some_2 selector (N.to_nat t)) as [src Hsrc];
        [unfold psize, vsize in Htlt; lia|].
      pose proof (Hw _ _ _ _ Hj Ht Hsrc) as Heq.
      rewrite Nat2N.id, Hk in Heq. symmetry in Heq.
      exact (bijection_lookup_lt _ _ _ _ Hp Heq).
    + rewrite (Hf _ Hnin) in Hk. exact (bijection_lookup_lt _ _ _ _ Hp Hk).
  - intros Hv. apply (proj2 Hp) in Hv. apply list_elem_of_lookup_1 in Hv as [i Hi].
    destruct (decide (N.of_nat i ∈ selector)) as [Hin|Hnin].
    + apply list_elem_of_lookup_1 in Hin as [j' Hj'].
      assert (N.of_nat j' ∈ sub) as Hjs.
      { apply (proj2 Hsub). apply lookup_lt_Some in Hj'.
        unfold psize, vsize. lia. }
      apply list_elem_of_lookup_1 in Hjs as [j Hj].
      destruct (lookup_lt_is_Some_2 selector j) as [s Hs];
        [apply lookup_lt_Some in Hj; lia|].
      assert (selector !! N.to_nat (N.of_nat j') = Some (N.of_nat i)) as Hsrc
        by by rewrite Nat2N.id.
      pose proof (Hw _ _ _ _ Hs Hj Hsrc) as Heq.
      rewrite Nat2N.id, Hi in Heq. by eapply list_elem_of_lookup_2.
    + rewrite <- (Hf _ Hnin) in Hi. by eapply list_elem_of_lookup_2.
Qed.

Lemma partialPermutation_bijection_witness :
  ∃ r, partialPermutation [2; 0; 1; 3] [3; 1; 0] [1; 2; 0] = Ok r ∧
       bijection 4 r.
Proof.
  apply (partialPermutation_bijection 4 [2; 0; 1; 3] [3; 1; 0] [1; 2; 0]).
  - apply bijectionb_correct. reflexivity.
  - compute_done.
  - compute_done.
  - apply bijectionb_correct. reflexivity.
Defined.

Lemma partialPermutation_returns_witness :
  (∃ r, partialPermutation [0; 1; 2] [0; 2] [1; 0] = Ok r)
  ∧ psize [0; 1; 2] = 3.
Proof.
  split; [|reflexivity].
  apply (proj1 (partialPermutation_returns [0; 1; 2] [0; 2] [1; 0])).
  split; [reflexivity|]. split; compute_done.
Defined.

(** ** Permutation::print *)








(** ** VariableSlots: what print never writes, and equals as a relation *)

Lemma print_nonempty (first : Index * list Index) (rest : list (Index * list Index))
    (str : string) :
  print (first :: rest) str
  = [Str str; Str newline]
    ++ line "Var:" ((λ slot, Num slot.1) <$> first :: rest)
    ++ concat ((λ i, line "    " ((λ slot, cell (vget slot.2 i)) <$> first :: rest))
                 <$> iota (vsize first.2)).
Proof.
  unfold print. cbv zeta. rewrite print_rows.
  rewrite (foldl_snoc_concat (λ slot, [Num slot.1; Str tab])).
  unfold line. rewrite <- !list_fmap_compose, <- !app_assoc. simpl.
  by rewrite <- !app_assoc.
Qed.

Lemma elem_of_line (label : string) (cells : list item) (it : item) :
  it ∈ line label cells →
  it = Str (label +:+ tab) ∨ it ∈ cells ∨ it = Str tab ∨ it = Str newline.
Proof.
  unfold line. rewrite elem_of_cons, elem_of_app, list_elem_of_singleton.
  intros [-> | [Hin | ->]]; [by left| |by right; right; right].
  apply list_elem_of_In, in_concat in Hin as (chunk & Hchunk & Hit).
  apply list_elem_of_In, list_elem_of_fmap in Hchunk as (c & -> & Hc).
  apply list_elem_of_In in Hit.
  apply elem_of_cons in Hit as [-> | Hit]; [by right; left|].
  apply list_elem_of_singleton in Hit as ->. by right; right; left.
Qed.

Lemma print_sentinel_not_written (this : list (Index * list Index)) (str : string) :
  Forall (λ slot, slot.1 ≠ Index_max) this →
  Num Index_max ∉ print this str.
Proof.
  intros Hids Hin. destruct this as [|first rest].
  - simpl in Hin. apply elem_of_cons in Hin as [?|Hin]; [done|].
    by apply list_elem_of_singleton in Hin.
  - rewrite print_nonempty in Hin.
    apply elem_of_app in Hin as [Hin|Hin].
    { apply elem_of_cons in Hin as [?|Hin]; [done|].
      by apply list_elem_of_singleton in Hin. }
    apply elem_of_app in Hin as [Hin|Hin].
    + apply elem_of_line in Hin as [?|[Hin|[?|?]]]; try done.
      apply list_elem_of_fmap in Hin as (slot & [= Heq] & Hslot).
      rewrite Forall_forall in Hids. by apply (Hids slot).
    + apply list_elem_of_In, in_concat in Hin as (row & Hrow & Hit).
      apply list_elem_of_In, list_elem_of_fmap in Hrow as (i & -> & _).
      apply list_elem_of_In, elem_of_line in Hit as [?|[Hit|[?|?]]]; try done.
      apply list_elem_of_fmap in Hit as (slot & Heq & _).
      unfold cell in Heq.
      destruct (vget slot.2 i =? Index_max) eqn:Hv; [done|].
      injection Heq as Heq. apply N.eqb_neq in Hv. by rewrite Heq in Hv.
Qed.

(** [print] never writes the sentinel as a number: in a table (every row
    has one slot per factor, so all rows have the same length [m]) whose
    variable ids differ from the sentinel, nothing that is written is the
    maximum index as a number: an absent slot is shown as the marker,
    whatever the rows hold. *)
Theorem print_never_shows_sentinel (this : list (Index * list Index)) (m : nat)
    (str : string) :
  Forall (λ slot, length slot.2 = m) this →
  Forall (λ slot, slot.1 ≠ Index_max) this →
  Forall (λ it, it ≠ Num Index_max) (print this str).
Proof.
  intros _ Hids. apply Forall_forall. intros it Hin ->.
  by apply (print_sentinel_not_written this str).
Qed.

Lemma print_never_shows_sentinel_witness :
  Forall (λ it, it ≠ Num Index_max)
    (print [(0, [0; Index_max]); (1, [Index_max; Index_max]); (2, [Index_max; 1])]
       "slots").
Proof.
  apply (print_never_shows_sentinel _ 2); repeat constructor; by compute.
Defined.

(** [equals] is an equivalence on tables, whatever tolerances are passed at
    each use: a table equals itself, the order of the two tables does not
    matter, and tables equal to a common one equal each other. *)
Theorem equals_equivalence :
  (∀ a t, equals a a t = true) ∧
  (∀ a b t1 t2, equals a b t1 = equals b a t2) ∧
  (∀ a b c t1 t2 t3,
     equals a b t1 = true → equals b c t2 = true → equals a c t3 = true).
Proof.
  unfold equals. split; [|split].
  - intros a _. by apply map_eq_spec.
  - intros a b _ _. destruct (map_eq a b) eqn:Hab.
    + apply map_eq_spec in Hab as ->. symmetry. by apply map_eq_spec.
    + destruct (map_eq b a) eqn:Hba; [|done].
      apply map_eq_spec in Hba as ->.
      rewrite (proj2 (map_eq_spec a a)) in Hab; done.
  - intros a b c _ _ _ Hab Hbc. by apply map_eq_spec in Hab as ->.
Qed.

(** ** ImuFactorBase::equals *)

(** [equals] on factors that differ at most in the sensor pose: without a
    sensor pose on either side the factors are equal, with a sensor pose on
    one side only they are not, and with one on both sides the answer is
    that of the pose comparison, on which the tolerance has no effect. *)
Theorem ImuFactorBase_equals_sensor_pose
    {Vector3 Pose3 : Type}
    (equal_with_abs_tol : Vector3 → Vector3 → float → bool)
    (Pose3_equals : Pose3 → Pose3 → bool)
    (gravity omegaCoriolis : Vector3) (use2ndOrderCoriolis : bool)
    (b e : Pose3) (tol : float) :
  equal_with_abs_tol gravity gravity tol = true →
  equal_with_abs_tol omegaCoriolis omegaCoriolis tol = true →
  let factor := ImuFactorBaseClass.new gravity omegaCoriolis in
  let equals := ImuFactorBaseClass.equals equal_with_abs_tol Pose3_equals in
  equals (factor None use2ndOrderCoriolis) (factor None use2ndOrderCoriolis) tol
    = true ∧
  equals (factor (Some b) use2ndOrderCoriolis) (factor None use2ndOrderCoriolis) tol
    = false ∧
  equals (factor None use2ndOrderCoriolis) (factor (Some e) use2ndOrderCoriolis) tol
    = false ∧
  equals (factor (Some b) use2ndOrderCoriolis) (factor (Some e) use2ndOrderCoriolis) tol
    = Pose3_equals b e.
Proof.
  intros Hg Hw. unfold ImuFactorBaseClass.equals, ImuFactorBaseClass.new. simpl.
  rewrite Hg, Hw, Bool.eqb_reflx. simpl.
  by repeat split.
Qed.

Lemma ImuFactorBase_equals_sensor_pose_witness :
  let factor := ImuFactorBaseClass.new (Pose3 := bool) true false in
  let equals := ImuFactorBaseClass.equals (λ x y (_ : float), Bool.eqb x y) Bool.eqb in
  equals (factor None true) (factor None true) 0.5%float = true ∧
  equals (factor (Some true) true) (factor None true) 0.5%float = false ∧
  equals (factor None true) (factor (Some false) true) 0.5%float = false ∧
  equals (factor (Some true) true) (factor (Some false) true) 0.5%float
    = Bool.eqb true false.
Proof.
  apply (ImuFactorBase_equals_sensor_pose
           (λ x y (_ : float), Bool.eqb x y) Bool.eqb true false true
           true false 0.5%float); reflexivity.
Defined.

(** [equals] never holds between factors whose second-order Coriolis flags
    differ or of which only one has a sensor pose, and it is symmetric as
    soon as the vector and pose comparisons it calls are. *)
Theorem ImuFactorBase_equals_symmetric
    {Vector3 Pose3 : Type}
    (equal_with_abs_tol : Vector3 → Vector3 → float → bool)
    (Pose3_equals : Pose3 → Pose3 → bool)
    (this expected : ImuFactorBaseClass.ImuFactorBase (Vector3 := Vector3) (Pose3 := Pose3))
    (tol : float) :
  (∀ x y t, equal_with_abs_tol x y t = equal_with_abs_tol y x t) →
  (∀ x y, Pose3_equals x y = Pose3_equals y x) →
  let equals := ImuFactorBaseClass.equals equal_with_abs_tol Pose3_equals in
  equals this expected tol = equals expected this tol ∧
  (equals this expected tol = true →
   ImuFactorBaseClass.use2ndOrderCoriolis_ this
     = ImuFactorBaseClass.use2ndOrderCoriolis_ expected ∧
   (is_Some (ImuFactorBaseClass.body_P_sensor_ this)
    ↔ is_Some (ImuFactorBaseClass.body_P_sensor_ expected))).
Proof.
  intros Hv Hp. unfold ImuFactorBaseClass.equals.
  destruct this as [g w b f], expected as [g' w' b' f']. simpl. split.
  - rewrite (Hv g g'), (Hv w w').
    destruct (equal_with_abs_tol g' g tol), (equal_with_abs_tol w' w tol),
      f, f', b as [b|], b' as [b'|]; simpl; try done; apply Hp.
  - destruct (equal_with_abs_tol g g' tol), (equal_with_abs_tol w w' tol),
      f, f', b as [b|], b' as [b'|]; simpl; try done;
      intros _; (split; [done|]); split; intros [? ?]; eauto; done.
Qed.

Lemma ImuFactorBase_equals_symmetric_witness :
  let this := ImuFactorBaseClass.new true false (Some true) true in
  let expected := ImuFactorBaseClass.new true false (Some true) true in
  let equals := ImuFactorBaseClass.equals (λ x y (_ : float), Bool.eqb x y) Bool.eqb in
  equals this expected 0.5%float = equals expected this 0.5%float ∧
  (equals this expected 0.5%float = true →
   ImuFactorBaseClass.use2ndOrderCoriolis_ this
     = ImuFactorBaseClass.use2ndOrderCoriolis_ expected ∧
   (is_Some (ImuFactorBaseClass.body_P_sensor_ this)
    ↔ is_Some (ImuFactorBaseClass.body_P_sensor_ expected))).
Proof.
  apply (ImuFactorBase_equals_symmetric
           (λ x y (_ : float), Bool.eqb x y) Bool.eqb
           (ImuFactorBaseClass.new true false (Some true) true)
           (ImuFactorBaseClass.new true false (Some true) true) 0.5%float).
  - intros [] [] _; reflexivity.
  - intros [] []; reflexivity.
Defined.

(** ** partialPermutation over every position *)

(** Selecting every position turns [partialPermutation] into [permute]:
    with [selector = Identity(n)] on a sequence [p] of size [n], the call
    returns what [p.permute(partialPermutation)] returns, for every partial
    permutation of size [n] with entries below [n]. *)
Theorem partialPermutation_all_positions (n : Index) (p sub : list Index) :
  psize p = n → psize sub = n → Forall (λ v, v < n) sub →
  ∃ id r, Identity n = Ok id ∧
          partialPermutation p id sub = Ok r ∧ permute p sub = Ok r.
Proof.
  intros Hp Hs Hsub. unfold psize, vsize in Hp, Hs.
  exists (iota n), (vget p <$> sub). split; [apply Identity_iota|].
  split; [|apply permute_map; unfold psize, vsize; by rewrite Hp].
  destruct (partialPermutation_frame p (iota n) sub)
    as (r & -> & Hlr & Hw & _).
  - rewrite length_iota. lia.
  - apply NoDup_iota.
  - unfold psize, vsize. rewrite Hp. apply bijection_Forall_lt, bijection_iota.
  - unfold psize, vsize. rewrite length_iota, N2Nat.id. done.
  - f_equal. apply list_eq. intros j. rewrite list_lookup_fmap.
    destruct (decide (j < N.to_nat n)%nat) as [Hj|Hj].
    + destruct (lookup_lt_is_Some_2 sub j) as [t Ht]; [lia|].
      pose proof (Forall_lookup_1 _ _ _ _ Hsub Ht) as Htn. simpl in Htn.
      destruct (lookup_lt_is_Some_2 p (N.to_nat t)) as [x Hx]; [lia|].
      pose proof (Hw j (N.of_nat j) t t (lookup_iota n j Hj) Ht) as Heq.
      rewrite Nat2N.id in Heq. rewrite Heq.
      * rewrite Ht, Hx. simpl. by rewrite (vget_lookup p t x Hx).
      * rewrite lookup_iota by lia. f_equal. lia.
    + rewrite (lookup_ge_None_2 r) by lia. by rewrite (lookup_ge_None_2 sub) by lia.
Qed.

Lemma partialPermutation_all_positions_witness :
  ∃ id r, Identity 4 = Ok id ∧
          partialPermutation [7; 5; 5; 9] id [3; 3; 0; 1] = Ok r ∧
          permute [7; 5; 5; 9] [3; 3; 0; 1] = Ok r.
Proof.
  apply (partialPermutation_all_positions 4 [7; 5; 5; 9] [3; 3; 0; 1]);
    [reflexivity..|compute_done].
Defined.
